(** * scripts/test-spider.py: the Spider corpus harness of SQLinLean

    A shallow embedding of [categorize_failure] and [main], and the
    properties of the failure classifier and of the run aggregator. *)

From Stdlib Require Import ZArith NArith List Bool String Ascii QArith Lia.
From Stdlib Require Import Permutation Sorted.
Import ListNotations.
Open Scope string_scope.
Open Scope list_scope.
Open Scope Z_scope.

(** ** Python values used by the script *)

Module Py.

(** A Python [str] is a sequence of Unicode code points. *)
Definition char := N.
Definition str := list char.

(** A string literal of the source (all of them are ASCII). *)
Definition lit (s : string) : str :=
  map N_of_ascii (list_ascii_of_string s).

Definition len {A} (l : list A) : Z := Z.of_nat (List.length l).

(** The exceptions the script can meet. *)
Inductive exn := ValueError | ZeroDivisionError.

Inductive result (A : Type) :=
| Ok (a : A)
| Raise (e : exn).
Arguments Ok {A} a.
Arguments Raise {A} e.

(** [s.startswith(p)] *)
Fixpoint starts_with (p s : str) : bool :=
  match p, s with
  | [], _ => true
  | _ :: _, [] => false
  | a :: p', b :: s' => N.eqb a b && starts_with p' s'
  end.

(** [hay.find(needle)]: the lowest index at which [needle] occurs. *)
Fixpoint find (needle hay : str) : option nat :=
  if starts_with needle hay then Some 0%nat
  else match hay with
       | [] => None
       | _ :: t => option_map S (find needle t)
       end.

(** [needle in hay] *)
Definition contains (needle hay : str) : bool :=
  match find needle hay with Some _ => true | None => false end.

(** [hay.index(needle)]: as [find], but raises [ValueError] when absent. *)
Definition index (needle hay : str) : result Z :=
  match find needle hay with
  | Some i => Ok (Z.of_nat i)
  | None => Raise ValueError
  end.

(** [s.count(c)] for a one-character needle [c]. *)
Fixpoint count (c : char) (s : str) : Z :=
  match s with
  | [] => 0
  | a :: t => (if N.eqb a c then 1 else 0) + count c t
  end.

(** A slice bound is taken from the end when negative, then clamped to
    [0 .. len l] (done by [Z.to_nat] below zero, by [firstn]/[skipn] above). *)
Definition bound {A} (i : Z) (l : list A) : nat :=
  Z.to_nat (if i <? 0 then i + len l else i).

(** [l[:stop]] *)
Definition slice_to {A} (stop : Z) (l : list A) : list A :=
  firstn (bound stop l) l.

(** [l[start:]] *)
Definition slice_from {A} (start : Z) (l : list A) : list A :=
  skipn (bound start l) l.

(** [a / b] on integers: true division.  The quotient is kept as the exact
    rational; its rounding to a float and the [.1f] formatting are not
    modelled. *)
Definition truediv (a b : Z) : result Q :=
  if b =? 0 then Raise ZeroDivisionError
  else Ok (inject_Z a / inject_Z b)%Q.

Section Upper.
(** [str.upper] maps every code point through the full upper-case mapping
    of the Unicode database, which may yield several code points.  On
    ASCII it changes the letters a-z only; the rest of the table is not
    part of the script and is taken as a parameter. *)
Variable upper_nonascii : char -> list char.

Definition upper_char (c : char) : list char :=
  if (c <? 128)%N
  then [if ((97 <=? c) && (c <=? 122))%N then (c - 32)%N else c]
  else upper_nonascii c.

Definition upper (s : str) : str := flat_map upper_char s.
End Upper.

End Py.
Import Py.

Declare Scope py_scope.
Delimit Scope py_scope with py.
Notation "x <- c1 ;; c2" :=
  (match c1 with Ok x => c2 | Raise e => Raise e end)
  (at level 61, c1 at next level, right associativity) : py_scope.
Open Scope py_scope.

(** ** The failure classifier *)

(** The double quote and the opening parenthesis. *)
Definition dquote : char := 34%N.
Definition lparen : char := 40%N.

Section Classifier.
Variable upper_nonascii : char -> list char.

(** Lines 35-41: the nested-SELECT test on the upper-cased text [q].
    [true] stands for reaching [return 'Subquery']. *)
Definition subquery_check (q : str) : result bool :=
  if contains (lit "SELECT") q && contains (lit "(") q then
    paren_idx <- index (lit "(") q ;;
    if paren_idx + 1 <? len q then
      let after_paren := slice_from (paren_idx + 1) q in
      if contains (lit "SELECT") after_paren then Ok true else Ok false
    else Ok false
  else Ok false.

(** Lines 31-57. *)
Definition categorize_failure (query : str) : result string :=
  let q := upper upper_nonascii query in
  is_subquery <- subquery_check q ;;
  if is_subquery then Ok "Subquery"
  else if contains (lit " EXCEPT ") q then Ok "EXCEPT"
  else if contains (lit " UNION ") q then Ok "UNION"
  else if contains (lit " INTERSECT ") q then Ok "INTERSECT"
  else if contains (lit "CASE ") q || contains (lit " WHEN ") q then Ok "CASE/WHEN"
  else if contains (lit " || ") q then Ok "String concat (||)"
  else if contains [dquote; dquote] query || negb (count dquote query mod 2 =? 0)
       then Ok "Double-quoted strings"
  else Ok "Other".

End Classifier.

(** ** The run aggregator *)

(** [argparse]'s namespace: [--limit], [--categorize], [--verbose]. *)
Record Args := { limit : Z; categorize : bool; verbose : bool }.

(** An entry of the corpus; only its ['query'] field is read. *)
Record Item := { item_query : str }.

(** What the script sees of its surroundings before the loop: whether the two
    paths exist, and the corpus [json.load] returns. *)
Record Env := {
  SPIDER_DATA : string;
  spider_data_exists : bool;
  parser_bin_exists : bool;
  data : list Item }.

(** A printed line, by the values its f-string formats. *)
Inductive line :=
| Text (s : string)
| ProgressLine (total limit passed : Z) (pct : Q)
| TotalLine (total : Z)
| PassedLine (passed : Z) (pct : Q)
| FailedLine (failed : Z) (pct : Q)
| CategoryLine (cat : string) (count : Z) (pct : Q)
| SampleLine (text : str).

(** The locals the loop of [main] updates. *)
Record counts := { total : Z; passed : Z; failures : list str }.

(** [collections.Counter]: keys in order of first insertion. *)
Fixpoint counter_add (k : string) (c : list (string * Z)) : list (string * Z) :=
  match c with
  | [] => [(k, 1)]
  | (k', n) :: c' =>
      if String.eqb k' k then (k', n + 1) :: c' else (k', n) :: counter_add k c'
  end.

Definition Counter (keys : list string) : list (string * Z) :=
  fold_left (fun c k => counter_add k c) keys [].

(** [Counter.most_common()] is [sorted(items, key=count, reverse=True)]: a
    stable sort, so entries of equal count keep their insertion order. *)
Fixpoint insert_desc (x : string * Z) (l : list (string * Z)) : list (string * Z) :=
  match l with
  | [] => [x]
  | y :: l' => if snd y <? snd x then x :: y :: l' else y :: insert_desc x l'
  end.

Definition most_common (c : list (string * Z)) : list (string * Z) :=
  fold_left (fun acc x => insert_desc x acc) c [].

(** A generator expression or comprehension over a call that may raise. *)
Fixpoint map_result {A B} (f : A -> result B) (l : list A) : result (list B) :=
  match l with
  | [] => Ok []
  | a :: l' => b <- f a ;; bs <- map_result f l' ;; Ok (b :: bs)
  end.

(** ['=' * 50] *)
Definition rule50 : string :=
  "==================================================".

Definition nl : string := String (ascii_of_nat 10) EmptyString.

(** Line 118: [q[:100]] followed by ['...'] when [len(q) > 100]. *)
Definition sample_text (q : str) : str :=
  slice_to 100 q ++ (if 100 <? len q then lit "..." else lit "").

Section Aggregator.
Variable upper_nonascii : char -> list char.

(** [test_query] runs the parser binary on the query and reads its exit
    status.  The process is outside the script: it is a transition of an
    arbitrary external state to a boolean outcome. *)
Variable World : Type.
Variable test_query : str -> World -> bool * World.

(** The state [main] runs in: the external state, the calls of [test_query]
    so far, each with its outcome (a log kept for the proofs), and standard
    output. *)
Record machine := { world : World; calls : list (str * bool); out : list line }.

(** A computation either returns or raises, and leaves a machine state. *)
Definition M (A : Type) : Type := machine -> result A * machine.

Definition ret {A} (a : A) : M A := fun m => (Ok a, m).

Definition bind {A B} (c : M A) (k : A -> M B) : M B :=
  fun m => match c m with
           | (Ok a, m') => k a m'
           | (Raise e, m') => (Raise e, m')
           end.

Definition lift {A} (r : result A) : M A := fun m => (r, m).

Definition print (l : line) : M unit :=
  fun m => (Ok tt, {| world := world m; calls := calls m; out := out m ++ [l] |}).

Definition call_test_query (query : str) : M bool :=
  fun m => let (ok, w) := test_query query (world m) in
           (Ok ok, {| world := w; calls := calls m ++ [(query, ok)]; out := out m |}).

(** [for x in l: body], with the locals the body assigns threaded as [s]. *)
Fixpoint for_each {A S} (body : A -> S -> M S) (l : list A) (s : S) : M S :=
  match l with
  | [] => ret s
  | a :: l' => bind (body a s) (for_each body l')
  end.

Notation "x <~ c1 ;; c2" := (bind c1 (fun x => c2))
  (at level 61, c1 at next level, right associativity) : py_scope.
Notation "c1 ;;; c2" := (bind c1 (fun _ => c2))
  (at level 61, right associativity) : py_scope.

(** Truth value of a list: non-empty. *)
Definition truthy {A} (l : list A) : bool :=
  match l with [] => false | _ :: _ => true end.

(** Lines 86-95: one iteration of the loop over [data[:limit]]. *)
Definition loop_body (limit : Z) (item : Item) (s : counts) : M counts :=
  let query := item_query item in
  let total := total s + 1 in
  ok <~ call_test_query query ;;
  let s' :=
    if ok : bool
    then {| total := total; passed := passed s + 1; failures := failures s |}
    else {| total := total; passed := passed s; failures := failures s ++ [query] |} in
  (if total mod 100 =? 0 then
     pct <~ lift (truediv (100 * passed s') total) ;;
     print (ProgressLine total limit (passed s') pct)
   else ret tt) ;;;
  ret s'.

(** Lines 79-95: the counters, the clipped limit and the loop. *)
Definition run_loop (args : Args) (data : list Item) : M counts :=
  let limit := Z.min (limit args) (len data) in
  for_each (loop_body limit) (slice_to limit data)
           {| total := 0; passed := 0; failures := [] |}.

(** Lines 98-103. *)
Definition print_summary (s : counts) : M unit :=
  print (Text (nl ++ rule50)%string) ;;;
  print (Text "Spider Corpus Test Results") ;;;
  print (Text rule50) ;;;
  print (TotalLine (total s)) ;;;
  p <~ lift (truediv (100 * passed s) (total s)) ;;
  print (PassedLine (passed s) p) ;;;
  f <~ lift (truediv (100 * len (failures s)) (total s)) ;;
  print (FailedLine (len (failures s)) f).

(** Line 111, for one entry of the ranking. *)
Definition print_category (failures : list str) (entry : string * Z) (_ : unit) : M unit :=
  let (cat, count) := entry in
  pct <~ lift (truediv (100 * count) (len failures)) ;;
  print (CategoryLine cat count pct).

(** Lines 105-111. *)
Definition print_categories (args : Args) (failures : list str) : M unit :=
  if categorize args && truthy failures then
    print (Text (nl ++ rule50)%string) ;;;
    print (Text "Failure Categories") ;;;
    print (Text rule50) ;;;
    cats <~ lift (map_result (categorize_failure upper_nonascii) failures) ;;
    let categories := Counter cats in
    for_each (print_category failures) (most_common categories) tt
  else ret tt.

(** Lines 113-118. *)
Definition print_samples (args : Args) (failures : list str) : M unit :=
  if verbose args && truthy failures then
    print (Text (nl ++ rule50)%string) ;;;
    print (Text "Sample Failures (first 20)") ;;;
    print (Text rule50) ;;;
    for_each (fun q (_ : unit) => print (SampleLine (sample_text q)))
             (slice_to 20 failures) tt
  else ret tt.

(** Lines 60-120; the value returned is the exit status. *)
Definition main (args : Args) (env : Env) : M Z :=
  if negb (spider_data_exists env) then
    print (Text ("Error: Spider data not found at " ++ SPIDER_DATA env)%string) ;;;
    print (Text "Run: ./scripts/download-spider.sh") ;;;
    ret 1
  else if negb (parser_bin_exists env) then
    print (Text "Error: Parser not built. Run: lake build sqlinlean") ;;;
    ret 1
  else
    s <~ run_loop args (data env) ;;
    print_summary s ;;;
    print_categories args (failures s) ;;;
    print_samples args (failures s) ;;;
    ret 0.

(** The machine [main] starts from. *)
Definition start (w : World) : machine :=
  {| world := w; calls := []; out := [] |}.

End Aggregator.

Arguments world {World} m.
Arguments calls {World} m.
Arguments out {World} m.
Arguments ret {World A} a m.
Arguments bind {World A B} c k m.
Arguments lift {World A} r m.
Arguments print {World} l m.
Arguments for_each {World A S} body l s m.
Arguments print_summary {World} s m.
Arguments print_category {World} failures entry _ m.
Arguments print_categories upper_nonascii {World} args failures m.
Arguments print_samples {World} args failures m.
Arguments start {World} w.
Arguments call_test_query {World} test_query query m.
Arguments loop_body {World} test_query limit item s m.
Arguments run_loop {World} test_query args data m.
Arguments main upper_nonascii {World} test_query args env m.

(** ** The classifier as a table of rules

    The specification describes the classifier as an ordered list of rules,
    the first matching one giving the category.  The definitions of this part
    follow that description; [categorize_failure] above follows the code, and
    the two are compared below. *)

(** The closed set of categories. *)
Inductive Category :=
| Subquery | EXCEPT | UNION | INTERSECT | CASE_WHEN
| String_concat | Double_quoted_strings | Other.

(** The string the script returns for a category. *)
Definition label (c : Category) : string :=
  match c with
  | Subquery => "Subquery"
  | EXCEPT => "EXCEPT"
  | UNION => "UNION"
  | INTERSECT => "INTERSECT"
  | CASE_WHEN => "CASE/WHEN"
  | String_concat => "String concat (||)"
  | Double_quoted_strings => "Double-quoted strings"
  | Other => "Other"
  end.

(** The part of [s] strictly after the first [c]; empty when [c] is absent. *)
Fixpoint after_first (c : char) (s : str) : str :=
  match s with
  | [] => []
  | a :: t => if N.eqb a c then t else after_first c t
  end.

(** Rule 1 in the words of the specification, on the upper-cased text: it
    contains SELECT, it contains an opening parenthesis, and SELECT occurs in
    what follows the first opening parenthesis. *)
Definition subquery_rule (q : str) : bool :=
  contains (lit "SELECT") q && contains [lparen] q
  && contains (lit "SELECT") (after_first lparen q).

(** Rule 7, on the original text. *)
Definition double_quote_rule (query : str) : bool :=
  contains [dquote; dquote] query || Z.odd (count dquote query).

(** A rule pairs a predicate on the query text with the category it assigns. *)
Record rule := { predicate : str -> bool; category : Category }.

Section Rules.
Variable upper_nonascii : char -> list char.

(** A predicate that looks at the upper-cased copy of the text. *)
Definition on_upper (p : str -> bool) : str -> bool :=
  fun query => p (upper upper_nonascii query).

(** The rules, in the order they are tried. *)
Definition rule_table : list rule :=
  [ {| predicate := on_upper subquery_rule; category := Subquery |};
    {| predicate := on_upper (contains (lit " EXCEPT ")); category := EXCEPT |};
    {| predicate := on_upper (contains (lit " UNION ")); category := UNION |};
    {| predicate := on_upper (contains (lit " INTERSECT ")); category := INTERSECT |};
    {| predicate := on_upper (fun q => contains (lit "CASE ") q || contains (lit " WHEN ") q);
       category := CASE_WHEN |};
    {| predicate := on_upper (contains (lit " || ")); category := String_concat |};
    {| predicate := double_quote_rule; category := Double_quoted_strings |};
    {| predicate := fun _ => true; category := Other |} ].

End Rules.

(** First match wins: the category of the earliest rule whose predicate holds. *)
Fixpoint first_match (rules : list rule) (query : str) : option Category :=
  match rules with
  | [] => None
  | r :: rest => if predicate r query then Some (category r) else first_match rest query
  end.

(** [needle] occurs in [hay] as a contiguous run. *)
Definition occurs_in (needle hay : str) : Prop :=
  exists pre post, hay = pre ++ needle ++ post.

(** The category lines and the sample lines of an output. *)
Definition category_lines (o : list line) : list (string * Z * Q) :=
  flat_map (fun l => match l with CategoryLine c n p => [(c, n, p)] | _ => [] end) o.

Definition sample_lines (o : list line) : list str :=
  flat_map (fun l => match l with SampleLine t => [t] | _ => [] end) o.

(** An oracle that replays a fixed list of outcomes, failing once it is used up. *)
Definition replay (_ : str) (w : list bool) : bool * list bool :=
  match w with
  | [] => (false, [])
  | b :: w' => (b, w')
  end.

(** A case mapping that leaves every code point above ASCII alone. *)
Definition no_mapping (c : char) : list char := [c].

(** The category of a text: the first match over the rule table. *)
Definition category_of (up : char -> list char) (query : str) : Category :=
  match first_match (rule_table up) query with
  | Some c => c
  | None => Other
  end.

(** The ranked histogram of the retained failures. *)
Definition histogram (up : char -> list char) (failures : list str) : list (string * Z) :=
  most_common (Counter (map (fun q => label (category_of up q)) failures)).

(** [100 * count / n] as an exact rational. *)
Definition percent (count n : Z) : Q := (inject_Z (100 * count) / inject_Z n)%Q.

Definition Qsum (l : list Q) : Q := fold_right Qplus 0%Q l.

Definition Zsum (l : list Z) : Z := fold_right Z.add 0 l.

(** The number of occurrences of a key among the keys fed to a counter, and
    [c[k]]: the count a counter holds for a key, 0 when the key is absent. *)
Definition tally (k : string) (keys : list string) : Z :=
  len (filter (String.eqb k) keys).

Fixpoint lookup (k : string) (c : list (string * Z)) : Z :=
  match c with
  | [] => 0
  | (k', n) :: c' => if String.eqb k' k then n else lookup k c'
  end.

(** Entries ranked by count, largest first. *)
Definition descending (c : list (string * Z)) : Prop :=
  StronglySorted (fun a b => snd b <= snd a) c.

(** The counters before the first iteration. *)
Definition counts0 : counts := {| total := 0; passed := 0; failures := [] |}.

(** The queries a log of calls shows as failing, in the order of the calls,
    and the number of calls it shows as passing. *)
Definition failed_queries (log : list (str * bool)) : list str :=
  map fst (filter (fun c => negb (snd c)) log).

Definition passed_count (log : list (str * bool)) : Z := len (filter snd log).

(** The invariant of the loop. *)
Definition counts_ok (s : counts) : Prop :=
  0 <= passed s /\ passed s + len (failures s) = total s.

(** Only the loop prints progress lines. *)
Definition is_progress (l : line) : bool :=
  match l with ProgressLine _ _ _ _ => true | _ => false end.

(** The machine after printing the lines [ls]. *)
Definition emit {World} (ls : list line) (m : machine World) : machine World :=
  {| world := world m; calls := calls m; out := out m ++ ls |}.

(** What lines 98-103 print: the part before the first percentage, and all
    of it. *)
Definition summary_head (s : counts) : list line :=
  [ Text (nl ++ rule50)%string; Text "Spider Corpus Test Results"; Text rule50;
    TotalLine (total s) ].

Definition summary_lines (s : counts) : list line :=
  summary_head s
  ++ [ PassedLine (passed s) (percent (passed s) (total s));
       FailedLine (len (failures s)) (percent (len (failures s)) (total s)) ].

(** What lines 105-111 print. *)
Definition category_line (failures : list str) (entry : string * Z) : line :=
  CategoryLine (fst entry) (snd entry) (percent (snd entry) (len failures)).

Definition category_block (up : char -> list char) (args : Args) (failures : list str)
  : list line :=
  if categorize args && truthy failures then
    [ Text (nl ++ rule50)%string; Text "Failure Categories"; Text rule50 ]
    ++ map (category_line failures) (histogram up failures)
  else [].

(** What lines 113-118 print. *)
Definition sample_block (args : Args) (failures : list str) : list line :=
  if verbose args && truthy failures then
    [ Text (nl ++ rule50)%string; Text "Sample Failures (first 20)"; Text rule50 ]
    ++ map (fun q => SampleLine (sample_text q)) (slice_to 20 failures)
  else [].

(** A small run used to exercise the statements: three queries, of which
    the oracle accepts the first only. *)
Definition demo_queries : list str :=
  [ lit "SELECT 1";
    lit "SELECT a || b FROM t";
    lit "SELECT a FROM t UNION SELECT b FROM u" ].

Definition demo_env : Env :=
  {| SPIDER_DATA := "tests/data/spider/train_spider.json";
     spider_data_exists := true;
     parser_bin_exists := true;
     data := map (fun q => {| item_query := q |}) demo_queries |}.

Definition demo_outcomes : list bool := [true; false; false].

Definition demo_args (n : Z) : Args :=
  {| limit := n; categorize := true; verbose := true |}.

(** ** The run as pure functions of the oracle's answers *)

(** The queries a run selects: [data[:limit]] for the clipped limit. *)
Definition selected (args : Args) (corpus : list Item) : list Item :=
  slice_to (Z.min (limit args) (len corpus)) corpus.

(** The counters after a call on [q] that answered [ok] (lines 87-92). *)
Definition next_counts (q : str) (ok : bool) (s : counts) : counts :=
  if ok
  then {| total := total s + 1; passed := passed s + 1; failures := failures s |}
  else {| total := total s + 1; passed := passed s; failures := failures s ++ [q] |}.

(** The progress line of an iteration that leaves the counters [s]
    (lines 94-95): printed when [total] is a multiple of 100. *)
Definition progress_line (lim : Z) (s : counts) : list line :=
  if total s mod 100 =? 0
  then [ProgressLine (total s) lim (passed s) (percent (passed s) (total s))]
  else [].

(** The calls made on [queries] in turn from the external state [w], each
    with its answer, and the external state they leave. *)
Fixpoint oracle_trace {World} (test_query : str -> World -> bool * World)
         (queries : list str) (w : World) : list (str * bool) * World :=
  match queries with
  | [] => ([], w)
  | q :: rest =>
      let (ok, w1) := test_query q w in
      let (log, w2) := oracle_trace test_query rest w1 in
      ((q, ok) :: log, w2)
  end.

(** The counters after the calls of [log], from the counters [s]. *)
Definition counts_after (s : counts) (log : list (str * bool)) : counts :=
  fold_left (fun s c => next_counts (fst c) (snd c) s) log s.

(** The progress lines printed along the calls of [log], from the counters [s]. *)
Fixpoint progress_of (lim : Z) (s : counts) (log : list (str * bool)) : list line :=
  match log with
  | [] => []
  | c :: rest =>
      progress_line lim (next_counts (fst c) (snd c) s)
      ++ progress_of lim (next_counts (fst c) (snd c) s) rest
  end.

(** The totals from 1 to [n] at which a progress line is due. *)
Definition hundreds (n : nat) : list Z :=
  filter (fun t => t mod 100 =? 0) (map Z.of_nat (seq 1 n)).

(** The progress line at the total [t]: it reports the calls that passed
    among the first [t] of [log]. *)
Definition progress_at (lim : Z) (log : list (str * bool)) (t : Z) : line :=
  let p := passed_count (firstn (Z.to_nat t) log) in
  ProgressLine t lim p (percent p t).

(** Lines 20-28: [test_query] over the parser process.  [run_parser] is
    [subprocess.run] on the binary with the query as standard input: it
    yields the exit status ([returncode], negative when a signal killed the
    process) and leaves a new external state. *)
Definition test_query_of {World} (run_parser : str -> World -> Z * World)
  : str -> World -> bool * World :=
  fun query w => let (returncode, w') := run_parser query w in (returncode =? 0, w').

(** The exit statuses of the parser on [queries] in turn. *)
Fixpoint parser_trace {World} (run_parser : str -> World -> Z * World)
         (queries : list str) (w : World) : list (str * Z) * World :=
  match queries with
  | [] => ([], w)
  | q :: rest =>
      let (rc, w1) := run_parser q w in
      let (log, w2) := parser_trace run_parser rest w1 in
      ((q, rc) :: log, w2)
  end.

(** A parser that replays a fixed list of exit statuses. *)
Definition replay_status (_ : str) (w : list Z) : Z * list Z :=
  match w with
  | [] => (1, [])
  | rc :: w' => (rc, w')
  end.

(** The place of a category in the order of the tests. *)
Definition rank (c : Category) : nat :=
  match c with
  | Subquery => 0
  | EXCEPT => 1
  | UNION => 2
  | INTERSECT => 3
  | CASE_WHEN => 4
  | String_concat => 5
  | Double_quoted_strings => 6
  | Other => 7
  end.

(** A text of ASCII characters only. *)
Definition is_ascii (q : str) : bool := forallb (fun c => (c <? 128)%N) q.

(** The keys of a list in the order they are first met. *)
Fixpoint first_seen (keys : list string) : list string :=
  match keys with
  | [] => []
  | k :: rest => k :: filter (fun k' => negb (String.eqb k k')) (first_seen rest)
  end.

(** * Properties *)

(** ** Substring search *)

Lemma starts_with_app (p t : str) : starts_with p (p ++ t) = true.
Proof.
  induction p as [|a p IH]; simpl; [reflexivity|].
  now rewrite N.eqb_refl, IH.
Qed.

Lemma starts_with_inv (p s : str) :
  starts_with p s = true -> exists t, s = p ++ t.
Proof.
  revert s; induction p as [|a p IH]; intros s H.
  - now exists s.
  - destruct s as [|b s]; simpl in H; [discriminate|].
    apply andb_true_iff in H as [Hab Hps].
    apply N.eqb_eq in Hab; subst b.
    destruct (IH _ Hps) as [t ->].
    now exists t.
Qed.

(** [find] returns the position of an occurrence. *)
Lemma find_Some (needle hay : str) (i : nat) :
  find needle hay = Some i ->
  exists pre post, hay = pre ++ needle ++ post /\ List.length pre = i.
Proof.
  revert i; induction hay as [|a hay IH]; intros i H; simpl in H.
  - destruct (starts_with needle []) eqn:E; [|discriminate].
    injection H as <-.
    destruct (starts_with_inv _ _ E) as [t Ht].
    now exists [], t.
  - destruct (starts_with needle (a :: hay)) eqn:E.
    + injection H as <-.
      destruct (starts_with_inv _ _ E) as [t Ht].
      now exists [], t.
    + destruct (find needle hay) as [j|]; [|discriminate].
      injection H as <-.
      destruct (IH j eq_refl) as (pre & post & -> & Hlen).
      exists (a :: pre), post; simpl; split; congruence.
Qed.

(** [find] misses no occurrence. *)
Lemma find_None (needle hay : str) :
  find needle hay = None -> ~ occurs_in needle hay.
Proof.
  induction hay as [|a hay IH]; intros H (pre & post & Heq); simpl in H.
  - destruct pre; [|discriminate]. simpl in Heq.
    rewrite Heq, starts_with_app in H. discriminate.
  - destruct (starts_with needle (a :: hay)) eqn:E; [discriminate|].
    destruct (find needle hay) eqn:F; [discriminate|].
    destruct pre as [|b pre]; simpl in Heq.
    + rewrite Heq, starts_with_app in E. discriminate.
    + injection Heq as -> ->. apply IH; [reflexivity|]. now exists pre, post.
Qed.

Lemma contains_iff (needle hay : str) :
  contains needle hay = true <-> occurs_in needle hay.
Proof.
  unfold contains. destruct (find needle hay) as [i|] eqn:F.
  - split; [intros _|reflexivity].
    destruct (find_Some _ _ _ F) as (pre & post & H & _). now exists pre, post.
  - split; [discriminate|]. intros H. now apply find_None in H.
Qed.

(** For a one-character needle, [find] returns the first position. *)
Lemma find_char (c : char) (hay : str) (i : nat) :
  find [c] hay = Some i ->
  exists pre post,
    hay = pre ++ c :: post /\ List.length pre = i /\ ~ In c pre.
Proof.
  revert i; induction hay as [|a hay IH]; intros i H; simpl in H; [discriminate|].
  destruct (N.eqb c a) eqn:E; simpl in H.
  - injection H as <-. apply N.eqb_eq in E; subst a.
    exists [], hay. simpl; intuition.
  - destruct (find [c] hay) as [j|]; [|discriminate].
    injection H as <-.
    destruct (IH j eq_refl) as (pre & post & -> & Hlen & Hnot).
    exists (a :: pre), post; simpl; repeat split; try congruence.
    intros [->|]; [|contradiction]. now rewrite N.eqb_refl in E.
Qed.

Lemma after_first_split (c : char) (pre post : str) :
  ~ In c pre -> after_first c (pre ++ c :: post) = post.
Proof.
  induction pre as [|a pre IH]; simpl; intros H.
  - now rewrite N.eqb_refl.
  - destruct (N.eqb a c) eqn:E.
    + apply N.eqb_eq in E. tauto.
    + apply IH. tauto.
Qed.

Lemma after_first_absent (c : char) (s : str) :
  ~ In c s -> after_first c s = [].
Proof.
  induction s as [|a s IH]; simpl; intros H; [reflexivity|].
  destruct (N.eqb a c) eqn:E.
  - apply N.eqb_eq in E. tauto.
  - apply IH. tauto.
Qed.

(** ** The failure classifier *)

(** The nested test of lines 36-41 never raises ([index] is reached only
    when the parenthesis is present) and computes rule 1. *)
Lemma subquery_check_rule (q : str) :
  subquery_check q = Ok (subquery_rule q).
Proof.
  unfold subquery_check, subquery_rule.
  change (lit "(") with [lparen].
  destruct (contains (lit "SELECT") q); [|reflexivity].
  destruct (contains [lparen] q) eqn:C; [|reflexivity].
  unfold contains in C. unfold index.
  destruct (find [lparen] q) as [i|] eqn:F; [clear C|discriminate].
  destruct (find_char _ _ _ F) as (pre & post & -> & Hlen & Hnot).
  rewrite (after_first_split _ _ _ Hnot). simpl andb.
  unfold len.
  destruct (Z.ltb_spec (Z.of_nat i + 1) (Z.of_nat (List.length (pre ++ lparen :: post))))
    as [Hlt|Hge]; rewrite length_app in *; simpl List.length in *.
  - destruct post as [|b post]; [simpl in Hlt; lia|].
    unfold slice_from, bound.
    destruct (Z.ltb_spec (Z.of_nat i + 1) 0) as [Hneg|_]; [lia|].
    replace (Z.to_nat (Z.of_nat i + 1)) with (List.length (pre ++ [lparen]))
      by (rewrite length_app; simpl; lia).
    replace (pre ++ lparen :: b :: post) with ((pre ++ [lparen]) ++ b :: post)
      by now rewrite <- app_assoc.
    rewrite skipn_app, skipn_all, Nat.sub_diag. simpl.
    now destruct (contains (lit "SELECT") (b :: post)).
  - destruct post as [|b post]; [reflexivity|simpl in Hge; lia].
Qed.

Lemma mod2_odd (n : Z) : negb (n mod 2 =? 0) = Z.odd n.
Proof.
  rewrite Zmod_odd. now destruct (Z.odd n).
Qed.

(** The chain of tests is the first match over the rule table. *)
Lemma categorize_failure_table (up : char -> list char) (query : str) :
  exists c, first_match (rule_table up) query = Some c
            /\ categorize_failure up query = Ok (label c).
Proof.
  unfold categorize_failure. rewrite subquery_check_rule.
  unfold rule_table, first_match, on_upper, predicate, category, double_quote_rule.
  rewrite mod2_odd.
  destruct (subquery_rule (upper up query)); [eexists; split; reflexivity|].
  destruct (contains (lit " EXCEPT ") (upper up query)); [eexists; split; reflexivity|].
  destruct (contains (lit " UNION ") (upper up query)); [eexists; split; reflexivity|].
  destruct (contains (lit " INTERSECT ") (upper up query)); [eexists; split; reflexivity|].
  destruct (contains (lit "CASE ") (upper up query) || contains (lit " WHEN ") (upper up query));
    [eexists; split; reflexivity|].
  destruct (contains (lit " || ") (upper up query)); [eexists; split; reflexivity|].
  destruct (contains [dquote; dquote] query || Z.odd (count dquote query)); eexists; split; reflexivity.
Qed.

(** Rules after the first matching one play no part. *)
Lemma first_match_split (pre post : list rule) (r : rule) (query : str) :
  (forall r', In r' pre -> predicate r' query = false) ->
  predicate r query = true ->
  first_match (pre ++ r :: post) query = Some (category r).
Proof.
  induction pre as [|a pre IH]; simpl; intros Hpre Hr.
  - now rewrite Hr.
  - rewrite (Hpre a) by now left. apply IH; auto.
Qed.

Lemma label_inj (c c' : Category) : label c = label c' -> c = c'.
Proof.
  destruct c, c'; simpl; intros H; try reflexivity; discriminate.
Qed.

Lemma first_match_Some (rules : list rule) (query : str) (c : Category) :
  first_match rules query = Some c ->
  exists pre r post,
    rules = pre ++ r :: post
    /\ (forall r', In r' pre -> predicate r' query = false)
    /\ predicate r query = true /\ category r = c.
Proof.
  induction rules as [|a rules IH]; simpl; [discriminate|].
  destruct (predicate a query) eqn:E; intros H.
  - injection H as <-. exists [], a, rules. simpl. intuition.
  - destruct (IH H) as (pre & r & post & -> & Hpre & Hr & Hc).
    exists (a :: pre), r, post. simpl. intuition. now subst.
Qed.

Lemma first_match_app_None (rules rest : list rule) (query : str) :
  first_match rules query = None ->
  first_match (rules ++ rest) query = first_match rest query.
Proof.
  induction rules as [|a rules IH]; simpl; [reflexivity|].
  destruct (predicate a query); [discriminate|exact IH].
Qed.

Lemma first_match_none_false (rules : list rule) (query : str) :
  (forall r, In r rules -> predicate r query = false) ->
  first_match rules query = None.
Proof.
  induction rules as [|a rules IH]; simpl; intros H; [reflexivity|].
  rewrite (H a) by now left. apply IH; auto.
Qed.

Lemma in_first_split (c : char) (s : str) :
  In c s -> exists pre post, s = pre ++ c :: post /\ ~ In c pre.
Proof.
  induction s as [|a s IH]; simpl; [contradiction|].
  destruct (N.eq_dec a c) as [->|Hne]; intros H.
  - exists [], s. simpl. intuition.
  - destruct H as [H|H]; [contradiction|].
    destruct (IH H) as (pre & post & -> & Hnot).
    exists (a :: pre), post. simpl. intuition.
Qed.

Lemma occurs_in_char (c : char) (s : str) : occurs_in [c] s <-> In c s.
Proof.
  split.
  - intros (pre & post & ->). apply in_or_app. right. now left.
  - intros H. destruct (in_split _ _ H) as (pre & post & ->). now exists pre, post.
Qed.

(** Rule 1 as a proposition about the text. *)
Lemma subquery_rule_iff (q : str) :
  subquery_rule q = true <->
  occurs_in (lit "SELECT") q /\ In lparen q
  /\ exists pre post,
       q = pre ++ lparen :: post /\ ~ In lparen pre
       /\ occurs_in (lit "SELECT") post.
Proof.
  unfold subquery_rule. rewrite !andb_true_iff, !contains_iff, occurs_in_char.
  split.
  - intros [[Hs Hp] Ha]. repeat split; trivial.
    destruct (in_first_split _ _ Hp) as (pre & post & -> & Hnot).
    exists pre, post. rewrite after_first_split in Ha by assumption. auto.
  - intros (Hs & Hp & pre & post & -> & Hnot & Ha).
    rewrite after_first_split by assumption. auto.
Qed.

Lemma categorize_failure_subquery (up : char -> list char) (query : str) :
  categorize_failure up query = Ok "Subquery" <->
  subquery_rule (upper up query) = true.
Proof.
  unfold categorize_failure. rewrite subquery_check_rule.
  destruct (subquery_rule (upper up query)); [tauto|].
  split; [|discriminate]. simpl.
  repeat match goal with
         | |- context [if ?b then _ else _] => destruct b
         end; discriminate.
Qed.

(** C1. The classifier is first-match-wins over the ordered rule table
    Subquery, EXCEPT, UNION, INTERSECT, CASE/WHEN, String-concat,
    Double-quoted-strings, Other: whenever the table splits as
    [pre ++ r :: post] with no rule of [pre] matching the text and [r]
    matching it, the result is the label of [r], whatever the rules of [post]
    do; such a split always exists; the result is the label of a category
    exactly when the first match over the table is that category; and the text
    [SELECT * FROM (SELECT name FROM singer EXCEPT SELECT name FROM other)],
    which matches both the Subquery and the EXCEPT predicate, is Subquery. *)
Theorem categorize_failure_first_match (up : char -> list char) :
  map category (rule_table up)
  = [Subquery; EXCEPT; UNION; INTERSECT; CASE_WHEN; String_concat;
     Double_quoted_strings; Other]
  /\ (forall query pre r post,
        rule_table up = pre ++ r :: post ->
        (forall r', In r' pre -> predicate r' query = false) ->
        predicate r query = true ->
        categorize_failure up query = Ok (label (category r)))
  /\ (forall query, exists pre r post,
        rule_table up = pre ++ r :: post
        /\ (forall r', In r' pre -> predicate r' query = false)
        /\ predicate r query = true)
  /\ (forall query c,
        categorize_failure up query = Ok (label c) <->
        first_match (rule_table up) query = Some c)
  /\ (let query :=
        lit "SELECT * FROM (SELECT name FROM singer EXCEPT SELECT name FROM other)" in
      on_upper up subquery_rule query = true
      /\ on_upper up (contains (lit " EXCEPT ")) query = true
      /\ categorize_failure up query = Ok "Subquery").
Proof.
  split; [reflexivity|]. split; [|split; [|split]].
  - intros query pre r post Hsplit Hpre Hr.
    destruct (categorize_failure_table up query) as (c & Hc & ->).
    rewrite Hsplit, (first_match_split _ _ _ _ Hpre Hr) in Hc.
    now injection Hc as <-.
  - intros query.
    destruct (categorize_failure_table up query) as (c & Hc & _).
    destruct (first_match_Some _ _ _ Hc) as (pre & r & post & H1 & H2 & H3 & _).
    now exists pre, r, post.
  - intros query c.
    destruct (categorize_failure_table up query) as (c' & Hc & ->).
    rewrite Hc. split; intros H; injection H as H.
    + now apply label_inj in H as ->.
    + now subst.
  - vm_compute. repeat split.
Qed.

(** C1 at the text [SELECT a FROM t EXCEPT SELECT b FROM u]: rule 1 does not
    match, rule 2 does. *)
Lemma categorize_failure_first_match_witness :
  categorize_failure no_mapping (lit "SELECT a FROM t EXCEPT SELECT b FROM u")
  = Ok (label EXCEPT).
Proof.
  apply (proj1 (proj2 (categorize_failure_first_match no_mapping))
           (lit "SELECT a FROM t EXCEPT SELECT b FROM u")
           [ {| predicate := on_upper no_mapping subquery_rule; category := Subquery |} ]
           {| predicate := on_upper no_mapping (contains (lit " EXCEPT "));
              category := EXCEPT |}
           (skipn 2 (rule_table no_mapping))).
  - reflexivity.
  - intros r' [<-|[]]. vm_compute. reflexivity.
  - vm_compute. reflexivity.
Defined.

(** C2. The classifier answers Subquery exactly when the upper-cased text
    contains SELECT, contains an opening parenthesis, and SELECT occurs in
    the part strictly after the first opening parenthesis (up to the end of
    the text: nothing is asked of the closing parenthesis, nor of where the
    first SELECT stands). *)
Theorem categorize_failure_subquery_iff (up : char -> list char) (query : str) :
  let q := upper up query in
  categorize_failure up query = Ok "Subquery" <->
  occurs_in (lit "SELECT") q /\ In lparen q
  /\ exists pre post,
       q = pre ++ lparen :: post /\ ~ In lparen pre
       /\ occurs_in (lit "SELECT") post.
Proof.
  intros q. unfold q.
  rewrite categorize_failure_subquery. apply subquery_rule_iff.
Qed.

(** C2 at [x) SELECT ( select]: the only parenthesis group is never closed
    around a SELECT and the first SELECT comes after a closing parenthesis;
    the text is Subquery all the same. *)
Lemma categorize_failure_subquery_iff_witness :
  categorize_failure no_mapping (lit "x) SELECT ( select") = Ok "Subquery".
Proof.
  apply (proj2 (categorize_failure_subquery_iff no_mapping (lit "x) SELECT ( select"))).
  split; [|split].
  - exists (lit "X) "), (lit " ( SELECT"). reflexivity.
  - vm_compute. tauto.
  - exists (lit "X) SELECT "), (lit " SELECT"). split; [reflexivity|]. split.
    + vm_compute. intuition discriminate.
    + exists (lit " "), []. reflexivity.
Defined.

Lemma categorize_failure_double_quote (up : char -> list char) (query : str) :
  first_match (firstn 6 (rule_table up)) query = None ->
  categorize_failure up query
  = Ok (if double_quote_rule query then "Double-quoted strings" else "Other").
Proof.
  intros H.
  destruct (categorize_failure_table up query) as (c & Hc & ->).
  change (rule_table up) with (firstn 6 (rule_table up) ++ skipn 6 (rule_table up)) in Hc.
  rewrite (first_match_app_None _ _ _ H) in Hc. simpl in Hc.
  destruct (double_quote_rule query); now injection Hc as <-.
Qed.

(** C3. Rule 7 reads the original text, not the upper-cased copy: for a text
    that matches none of rules 1-6, the classifier answers
    Double-quoted strings exactly when the original text contains two
    adjacent double quotes or holds an odd number of double quotes; the text
    [SELECT * FROM t WHERE name = ] followed by two double quotes is one. *)
Theorem categorize_failure_double_quote_iff (up : char -> list char) :
  (forall query,
     (forall r, In r (firstn 6 (rule_table up)) -> predicate r query = false) ->
     categorize_failure up query = Ok "Double-quoted strings" <->
     occurs_in [dquote; dquote] query \/ Z.odd (count dquote query) = true)
  /\ categorize_failure up (lit "SELECT * FROM t WHERE name = " ++ [dquote; dquote])
     = Ok "Double-quoted strings".
Proof.
  split; [|vm_compute; reflexivity].
  intros query H.
  rewrite (categorize_failure_double_quote up query (first_match_none_false _ _ H)).
  rewrite <- contains_iff, <- orb_true_iff. fold (double_quote_rule query).
  destruct (double_quote_rule query); split; intros E; try reflexivity; discriminate.
Qed.

(** C3 at [name = ] followed by one double quote: an odd count. *)
Lemma categorize_failure_double_quote_iff_witness :
  categorize_failure no_mapping (lit "name = " ++ [dquote]) = Ok "Double-quoted strings".
Proof.
  apply (proj1 (categorize_failure_double_quote_iff no_mapping) (lit "name = " ++ [dquote])).
  - intros r H. vm_compute in H.
    repeat (destruct H as [<-|H]; [vm_compute; reflexivity|]). destruct H.
  - right. vm_compute. reflexivity.
Defined.

(** C4. The classifier is total and deterministic: on every text, the empty
    one included, it returns (it does not raise) the label of exactly one
    category of the closed set; the category is Other when none of the first
    seven rules matches; and two evaluations on the same text agree. *)
Theorem categorize_failure_total (up : char -> list char) (query : str) :
  (exists! c : Category, categorize_failure up query = Ok (label c))
  /\ (first_match (firstn 7 (rule_table up)) query = None ->
      categorize_failure up query = Ok (label Other))
  /\ (forall r1 r2,
        categorize_failure up query = r1 -> categorize_failure up query = r2 ->
        r1 = r2)
  /\ categorize_failure up [] = Ok (label Other).
Proof.
  split; [|split; [|split]].
  - destruct (categorize_failure_table up query) as (c & _ & Hc).
    exists c. split; [exact Hc|].
    intros c' Hc'. rewrite Hc in Hc'. injection Hc' as Hl. now apply label_inj.
  - intros H.
    destruct (categorize_failure_table up query) as (c & Hc & ->).
    change (rule_table up) with (firstn 7 (rule_table up) ++ skipn 7 (rule_table up)) in Hc.
    rewrite (first_match_app_None _ _ _ H) in Hc. simpl in Hc. now injection Hc as <-.
  - intros r1 r2 <- <-. reflexivity.
  - reflexivity.
Qed.

(** C4 at the counting query over [singer] with [age > 20]: no rule but the
    last matches. *)
Lemma categorize_failure_total_witness :
  categorize_failure no_mapping (lit "SELECT COUNT(" ++ lit "*) FROM singer WHERE age > 20")
  = Ok (label Other).
Proof.
  apply (proj1 (proj2 (categorize_failure_total no_mapping
                         (lit "SELECT COUNT(" ++ lit "*) FROM singer WHERE age > 20")))).
  vm_compute. reflexivity.
Defined.

(** ** The run aggregator *)

Section Loop.
Variable World : Type.
Variable test_query : str -> World -> bool * World.

Lemma for_each_app {A S} (body : A -> S -> M World S) (l1 l2 : list A) (s : S)
      (m : machine World) :
  for_each body (l1 ++ l2) s m
  = bind (for_each body l1 s) (for_each body l2) m.
Proof.
  revert s m; induction l1 as [|a l1 IH]; intros s m; simpl.
  - reflexivity.
  - unfold bind. destruct (body a s m) as [[s'|e] m']; [|reflexivity].
    rewrite IH. reflexivity.
Qed.

(** One iteration never raises: the progress line divides by a total that
    is at least one.  It calls the oracle once, on the query of the item, and
    counts the query as passed or retains it as failed by the outcome. *)
Lemma loop_body_ok (lim : Z) (item : Item) (s : counts) (m : machine World) :
  counts_ok s ->
  exists s' m' ps ok,
    loop_body test_query lim item s m = (Ok s', m')
    /\ counts_ok s'
    /\ total s' = total s + 1
    /\ calls m' = calls m ++ [(item_query item, ok)]
    /\ passed s' = passed s + passed_count [(item_query item, ok)]
    /\ failures s' = failures s ++ failed_queries [(item_query item, ok)]
    /\ out m' = out m ++ ps /\ forallb is_progress ps = true.
Proof.
  intros [Hp Ht].
  assert (Hlen : 0 <= len (failures s)) by (unfold len; lia).
  unfold loop_body, bind, call_test_query.
  destruct (test_query (item_query item) (world m)) as [ok w].
  set (s' := if ok then _ else _).
  assert (Hs' : counts_ok s' /\ total s' = total s + 1
                /\ passed s' = passed s + passed_count [(item_query item, ok)]
                /\ failures s' = failures s ++ failed_queries [(item_query item, ok)]).
  { unfold counts_ok, s'. destruct ok; cbn; unfold len in *.
    - rewrite app_nil_r. repeat split; lia.
    - rewrite length_app. cbn. repeat split; lia. }
  destruct Hs' as (Hok & Htot & Hpass & Hfail).
  destruct ((total s + 1) mod 100 =? 0).
  - unfold lift, truediv.
    destruct (Z.eqb_spec (total s + 1) 0) as [E|_]; [lia|].
    unfold print, ret. eexists _, _, [_], ok.
    split; [reflexivity|]. split; [exact Hok|]. split; [exact Htot|].
    split; [reflexivity|]. split; [exact Hpass|]. split; [exact Hfail|].
    split; reflexivity.
  - unfold ret. eexists _, _, [], ok.
    split; [reflexivity|]. split; [exact Hok|]. split; [exact Htot|].
    split; [reflexivity|]. split; [exact Hpass|]. split; [exact Hfail|].
    split; [simpl; now rewrite app_nil_r|reflexivity].
Qed.

Lemma failed_queries_app (a b : list (str * bool)) :
  failed_queries (a ++ b) = failed_queries a ++ failed_queries b.
Proof.
  unfold failed_queries. now rewrite filter_app, map_app.
Qed.

Lemma passed_count_app (a b : list (str * bool)) :
  passed_count (a ++ b) = passed_count a + passed_count b.
Proof.
  unfold passed_count, len. rewrite filter_app, length_app. lia.
Qed.

(** The whole loop, from counters that satisfy the invariant. *)
Lemma for_each_loop_ok (lim : Z) (items : list Item) (s : counts) (m : machine World) :
  counts_ok s ->
  exists s' m' ps log,
    for_each (loop_body test_query lim) items s m = (Ok s', m')
    /\ counts_ok s'
    /\ total s' = total s + len items
    /\ calls m' = calls m ++ log
    /\ map fst log = map item_query items
    /\ passed s' = passed s + passed_count log
    /\ failures s' = failures s ++ failed_queries log
    /\ out m' = out m ++ ps /\ forallb is_progress ps = true.
Proof.
  revert s m; induction items as [|item items IH]; intros s m Hs; cbn [for_each].
  - exists s, m, [], []. unfold ret, len, passed_count, failed_queries, len. simpl.
    rewrite !app_nil_r, !Z.add_0_r. auto 10.
  - destruct (loop_body_ok lim item s m Hs)
      as (s1 & m1 & p1 & ok & E1 & H1 & T1 & C1 & Q1 & F1 & O1 & P1).
    destruct (IH s1 m1 H1)
      as (s2 & m2 & p2 & log & E2 & H2 & T2 & C2 & L2 & Q2 & F2 & O2 & P2).
    exists s2, m2, (p1 ++ p2), ((item_query item, ok) :: log).
    unfold bind. rewrite E1, E2.
    split; [reflexivity|]. split; [exact H2|].
    split; [|split; [|split; [|split; [|split; [|split]]]]].
    + rewrite T2, T1. unfold len. simpl List.length. lia.
    + rewrite C2, C1, <- app_assoc. reflexivity.
    + simpl. now rewrite L2.
    + rewrite Q2, Q1. change ((item_query item, ok) :: log)
        with ([(item_query item, ok)] ++ log). rewrite passed_count_app. lia.
    + rewrite F2, F1. change ((item_query item, ok) :: log)
        with ([(item_query item, ok)] ++ log).
      now rewrite failed_queries_app, app_assoc.
    + rewrite O2, O1, <- app_assoc. reflexivity.
    + rewrite forallb_app, P1, P2. reflexivity.
Qed.

Lemma counts0_ok : counts_ok counts0.
Proof.
  unfold counts_ok, counts0, len. simpl. lia.
Qed.

(** C5. For every corpus, limit and oracle, the counters satisfy
    [passed + failed = total], with [failed] the number of retained failing
    queries, after each iteration of the loop and when it ends: after any
    number [k] of iterations the loop has not raised, the invariant holds of
    its counters, [passed] counts the calls the oracle answered with success,
    [failures] holds the queries of the other calls in the order they were
    made, and the run goes on from these counters over the remaining items. *)
Theorem run_loop_counts (args : Args) (data : list Item) (m : machine World) (k : nat) :
  let lim := Z.min (limit args) (len data) in
  let items := slice_to lim data in
  (exists s m' log,
     for_each (loop_body test_query lim) (firstn k items) counts0 m = (Ok s, m')
     /\ passed s + len (failures s) = total s
     /\ total s = len (firstn k items)
     /\ calls m' = calls m ++ log
     /\ passed s = passed_count log
     /\ failures s = failed_queries log
     /\ run_loop test_query args data m
        = for_each (loop_body test_query lim) (skipn k items) s m')
  /\ (exists s m' log,
        run_loop test_query args data m = (Ok s, m')
        /\ passed s + len (failures s) = total s
        /\ total s = len items
        /\ calls m' = calls m ++ log
        /\ passed s = passed_count log
        /\ failures s = failed_queries log).
Proof.
  intros lim items. split.
  - destruct (for_each_loop_ok lim (firstn k items) counts0 m counts0_ok)
      as (s & m' & ps & log & E & [_ H] & T & C & _ & Q & F & _).
    exists s, m', log. repeat split; trivial.
    unfold run_loop. fold lim items counts0.
    rewrite <- (firstn_skipn k items) at 1.
    rewrite for_each_app. unfold bind. now rewrite E.
  - destruct (for_each_loop_ok lim items counts0 m counts0_ok)
      as (s & m' & ps & log & E & [_ H] & T & C & _ & Q & F & _).
    exists s, m', log. repeat split; trivial.
Qed.

End Loop.

(** ** Slices, counters and percentages *)

Lemma len_nonneg {A} (l : list A) : 0 <= len l.
Proof.
  unfold len. lia.
Qed.


(** A negative limit is counted from the end of the corpus. *)
Lemma slice_to_clip_negative {A} (n : Z) (l : list A) :
  n < 0 -> slice_to (Z.min n (len l)) l = firstn (Z.to_nat (len l + n)) l.
Proof.
  intros H. pose proof (len_nonneg l).
  rewrite Z.min_l by lia.
  unfold slice_to, bound.
  destruct (Z.ltb_spec n 0) as [_|Hge]; [|lia].
  now rewrite Z.add_comm.
Qed.

Lemma slice_to_nonneg {A} (n : Z) (l : list A) :
  0 <= n -> slice_to n l = firstn (Z.to_nat n) l.
Proof.
  intros H. unfold slice_to, bound.
  destruct (Z.ltb_spec n 0) as [Hneg|_]; [lia|reflexivity].
Qed.

Lemma Zsum_counter_add (k : string) (c : list (string * Z)) :
  Zsum (map snd (counter_add k c)) = Zsum (map snd c) + 1.
Proof.
  induction c as [|[k' n] c IH]; simpl; [reflexivity|].
  destruct (String.eqb k' k); simpl; lia.
Qed.

(** A counter holds one unit per key it was fed. *)
Lemma Zsum_Counter (keys : list string) : Zsum (map snd (Counter keys)) = len keys.
Proof.
  unfold Counter.
  assert (G : forall c, Zsum (map snd (fold_left (fun c k => counter_add k c) keys c))
                        = Zsum (map snd c) + len keys).
  { induction keys as [|k keys IH]; intros c; simpl.
    - unfold len. simpl. lia.
    - rewrite IH, Zsum_counter_add. unfold len. simpl List.length. lia. }
  rewrite G. reflexivity.
Qed.

Lemma Zsum_insert_desc (x : string * Z) (l : list (string * Z)) :
  Zsum (map snd (insert_desc x l)) = snd x + Zsum (map snd l).
Proof.
  induction l as [|y l IH]; simpl; [reflexivity|].
  destruct (snd y <? snd x); simpl; lia.
Qed.

(** Ranking moves the entries and keeps their counts. *)
Lemma Zsum_most_common (c : list (string * Z)) :
  Zsum (map snd (most_common c)) = Zsum (map snd c).
Proof.
  unfold most_common.
  assert (G : forall acc, Zsum (map snd (fold_left (fun acc x => insert_desc x acc) c acc))
                          = Zsum (map snd acc) + Zsum (map snd c)).
  { induction c as [|x c IH]; intros acc; simpl.
    - lia.
    - rewrite IH, Zsum_insert_desc. lia. }
  rewrite G. reflexivity.
Qed.

Lemma Zsum_histogram (up : char -> list char) (failures : list str) :
  Zsum (map snd (histogram up failures)) = len failures.
Proof.
  unfold histogram. rewrite Zsum_most_common, Zsum_Counter.
  unfold len. now rewrite length_map.
Qed.

Lemma percent_add (a b n : Z) :
  (percent (a + b) n == percent a n + percent b n)%Q.
Proof.
  unfold percent, Qdiv. rewrite Z.mul_add_distr_l, inject_Z_plus. ring.
Qed.

Lemma Qsum_percent (counts : list Z) (n : Z) :
  (Qsum (map (fun c => percent c n) counts) == percent (Zsum counts) n)%Q.
Proof.
  induction counts as [|c counts IH]; simpl.
  - unfold percent, Qdiv. simpl. ring.
  - rewrite IH, percent_add. reflexivity.
Qed.

Lemma percent_all (n : Z) : n <> 0 -> (percent n n == 100)%Q.
Proof.
  intros H. unfold percent. rewrite inject_Z_mult. field.
  intros E. apply H. now apply (inject_Z_injective n 0).
Qed.

Lemma truediv_percent (count n : Z) :
  n <> 0 -> truediv (100 * count) n = Ok (percent count n).
Proof.
  intros H. unfold truediv. now destruct (Z.eqb_spec n 0).
Qed.

Lemma categorize_failure_category_of (up : char -> list char) (query : str) :
  categorize_failure up query = Ok (label (category_of up query)).
Proof.
  destruct (categorize_failure_table up query) as (c & Hc & ->).
  unfold category_of. now rewrite Hc.
Qed.

(** Classifying the retained failures never raises. *)
Lemma map_result_categorize (up : char -> list char) (failures : list str) :
  map_result (categorize_failure up) failures
  = Ok (map (fun q => label (category_of up q)) failures).
Proof.
  induction failures as [|q failures IH]; simpl; [reflexivity|].
  now rewrite categorize_failure_category_of, IH.
Qed.

(** The sample text keeps at most a hundred characters and the marker. *)
Lemma sample_text_length (q : str) : (List.length (sample_text q) <= 103)%nat.
Proof.
  unfold sample_text. rewrite length_app, slice_to_nonneg by lia.
  pose proof (firstn_le_length (Z.to_nat 100) q) as H.
  destruct (100 <? len q); cbn [lit list_ascii_of_string map List.length]; lia.
Qed.

Lemma sample_text_long (q : str) :
  (List.length q > 100)%nat -> sample_text q = firstn 100 q ++ lit "...".
Proof.
  intros H. unfold sample_text. rewrite slice_to_nonneg by lia.
  destruct (Z.ltb_spec 100 (len q)) as [_|Hle]; [reflexivity|unfold len in Hle; lia].
Qed.

Lemma sample_text_short (q : str) :
  (List.length q <= 100)%nat -> sample_text q = q.
Proof.
  intros H. unfold sample_text. rewrite slice_to_nonneg by lia.
  destruct (Z.ltb_spec 100 (len q)) as [Hlt|_]; [unfold len in Hlt; lia|].
  change (Z.to_nat 100) with 100%nat.
  rewrite firstn_all2 by lia. apply app_nil_r.
Qed.

(** ** The histogram *)

Lemma lookup_counter_add (k k' : string) (c : list (string * Z)) :
  lookup k' (counter_add k c) = lookup k' c + (if String.eqb k k' then 1 else 0).
Proof.
  induction c as [|[k0 n] c IH]; cbn [counter_add lookup].
  - destruct (String.eqb k k'); reflexivity.
  - destruct (String.eqb_spec k0 k) as [->|Hne]; cbn [lookup].
    + destruct (String.eqb k k'); lia.
    + destruct (String.eqb_spec k0 k') as [->|Hne']; [|exact IH].
      destruct (String.eqb_spec k k') as [->|_]; [contradiction|lia].
Qed.

Lemma keys_counter_add (k k' : string) (c : list (string * Z)) :
  In k' (map fst (counter_add k c)) <-> k' = k \/ In k' (map fst c).
Proof.
  induction c as [|[k0 n] c IH]; cbn [counter_add map fst In].
  - intuition.
  - destruct (String.eqb_spec k0 k) as [->|Hne]; cbn [map fst In].
    + intuition.
    + rewrite IH. intuition.
Qed.

Lemma NoDup_counter_add (k : string) (c : list (string * Z)) :
  NoDup (map fst c) -> NoDup (map fst (counter_add k c)).
Proof.
  induction c as [|[k0 n] c IH]; cbn [counter_add map fst]; intros H.
  - constructor; [intros []|constructor].
  - inversion H as [|? ? Hnot Hc]; subst.
    destruct (String.eqb_spec k0 k) as [->|Hne]; cbn [map fst].
    + now constructor.
    + constructor; [|now apply IH].
      rewrite keys_counter_add. intros [->|Hin]; [now apply Hne|contradiction].
Qed.

Lemma positive_counter_add (k : string) (c : list (string * Z)) :
  Forall (fun e => 0 < snd e) c -> Forall (fun e => 0 < snd e) (counter_add k c).
Proof.
  induction c as [|[k0 n] c IH]; cbn [counter_add]; intros H.
  - repeat constructor.
  - inversion H as [|? ? Hn Hc]; subst. cbn [snd] in Hn.
    destruct (String.eqb k0 k); constructor; cbn [snd]; auto; lia.
Qed.

Lemma tally_cons (k k0 : string) (keys : list string) :
  tally k (k0 :: keys) = (if String.eqb k0 k then 1 else 0) + tally k keys.
Proof.
  unfold tally, len. cbn [filter]. rewrite (String.eqb_sym k k0).
  destruct (String.eqb k0 k); cbn [List.length]; lia.
Qed.

(** A counter holds every key once, with the number of times it was fed. *)
Lemma Counter_spec (keys : list string) :
  NoDup (map fst (Counter keys))
  /\ Forall (fun e => 0 < snd e) (Counter keys)
  /\ forall k, lookup k (Counter keys) = tally k keys.
Proof.
  unfold Counter.
  assert (G : forall c,
             NoDup (map fst c) -> Forall (fun e => 0 < snd e) c ->
             let c' := fold_left (fun c k => counter_add k c) keys c in
             NoDup (map fst c') /\ Forall (fun e => 0 < snd e) c'
             /\ forall k, lookup k c' = lookup k c + tally k keys).
  { induction keys as [|k0 keys IH]; intros c Hn Hp; cbn [fold_left].
    - repeat split; trivial. intros k. unfold tally, len. simpl. lia.
    - destruct (IH (counter_add k0 c) (NoDup_counter_add _ _ Hn)
                  (positive_counter_add _ _ Hp)) as (H1 & H2 & H3).
      repeat split; trivial.
      intros k. rewrite H3, lookup_counter_add, tally_cons. lia. }
  destruct (G [] (NoDup_nil _) (Forall_nil _)) as (H1 & H2 & H3).
  repeat split; trivial.
Qed.

Lemma lookup_absent (k : string) (c : list (string * Z)) :
  ~ In k (map fst c) -> lookup k c = 0.
Proof.
  induction c as [|[k0 n] c IH]; cbn [lookup map fst In]; intros H; [reflexivity|].
  destruct (String.eqb_spec k0 k) as [->|_]; [tauto|]. apply IH. tauto.
Qed.

Lemma lookup_present (k : string) (c : list (string * Z)) :
  In k (map fst c) -> In (k, lookup k c) c.
Proof.
  induction c as [|[k0 n] c IH]; cbn [lookup map fst In]; intros H; [contradiction|].
  destruct (String.eqb_spec k0 k) as [->|Hne]; [now left|].
  right. apply IH. tauto.
Qed.

Lemma lookup_entry (k : string) (n : Z) (c : list (string * Z)) :
  NoDup (map fst c) -> In (k, n) c -> lookup k c = n.
Proof.
  induction c as [|[k0 n0] c IH]; cbn [lookup map fst In]; intros Hn H; [contradiction|].
  inversion Hn as [|? ? Hnot Hc]; subst.
  destruct H as [H|H].
  - injection H as -> ->. now rewrite String.eqb_refl.
  - destruct (String.eqb_spec k0 k) as [->|_]; [|now apply IH].
    exfalso. apply Hnot. now apply (in_map fst) in H.
Qed.

Lemma insert_desc_perm (x : string * Z) (l : list (string * Z)) :
  Permutation (insert_desc x l) (x :: l).
Proof.
  induction l as [|y l IH]; cbn [insert_desc]; [reflexivity|].
  destruct (snd y <? snd x); [reflexivity|].
  rewrite IH. apply perm_swap.
Qed.

Lemma most_common_perm (c : list (string * Z)) : Permutation (most_common c) c.
Proof.
  unfold most_common.
  assert (G : forall acc,
             Permutation (fold_left (fun acc x => insert_desc x acc) c acc) (acc ++ c)).
  { induction c as [|x c IH]; intros acc; cbn [fold_left].
    - now rewrite app_nil_r.
    - rewrite IH, insert_desc_perm. apply Permutation_middle. }
  exact (G []).
Qed.

Lemma insert_desc_descending (x : string * Z) (l : list (string * Z)) :
  descending l -> descending (insert_desc x l).
Proof.
  unfold descending.
  induction l as [|y l IH]; cbn [insert_desc]; intros H.
  - repeat constructor.
  - inversion H as [|? ? Hl Hy]; subst.
    destruct (Z.ltb_spec (snd y) (snd x)) as [Hlt|Hge].
    + constructor; [exact H|]. constructor; [lia|].
      eapply Forall_impl; [|exact Hy]. cbn beta. intros b Hb. lia.
    + constructor; [now apply IH|].
      eapply Permutation_Forall; [symmetry; apply insert_desc_perm|].
      constructor; [lia|exact Hy].
Qed.

Lemma most_common_descending (c : list (string * Z)) : descending (most_common c).
Proof.
  unfold most_common.
  assert (G : forall acc, descending acc ->
                          descending (fold_left (fun acc x => insert_desc x acc) c acc)).
  { induction c as [|x c IH]; intros acc H; cbn [fold_left]; [exact H|].
    apply IH. now apply insert_desc_descending. }
  apply G. constructor.
Qed.

(** X2. The ranked histogram lists every category met among the failures once,
    with the number of failures it was assigned to, largest count first. *)
Theorem histogram_counts (up : char -> list char) (failures : list str) :
  let labels := map (fun q => label (category_of up q)) failures in
  NoDup (map fst (histogram up failures))
  /\ descending (histogram up failures)
  /\ (forall cat n,
        In (cat, n) (histogram up failures) <-> n = tally cat labels /\ 0 < n)
  /\ forall q, In q failures ->
               categorize_failure up q = Ok (label (category_of up q))
               /\ 0 < tally (label (category_of up q)) labels.
Proof.
  intros labels. unfold histogram. fold labels.
  destruct (Counter_spec labels) as (Hn & Hp & Hl).
  pose proof (most_common_perm (Counter labels)) as Hperm.
  split; [|split; [|split]].
  - eapply Permutation_NoDup; [|exact Hn].
    apply Permutation_map. now symmetry.
  - apply most_common_descending.
  - intros cat n. split.
    + intros H. apply (Permutation_in _ Hperm) in H.
      split.
      * now rewrite <- Hl, (lookup_entry _ _ _ Hn H).
      * rewrite Forall_forall in Hp. exact (Hp _ H).
    + intros [-> Hpos]. apply (Permutation_in _ (Permutation_sym Hperm)).
      rewrite <- Hl. apply lookup_present.
      destruct (in_dec string_dec cat (map fst (Counter labels))) as [Hin|Hout];
        [exact Hin|].
      rewrite <- Hl, (lookup_absent _ _ Hout) in Hpos. lia.
  - intros q Hq. split; [apply categorize_failure_category_of|].
    unfold tally, len.
    assert (Hin : In (label (category_of up q))
                     (filter (String.eqb (label (category_of up q))) labels)).
    { apply filter_In. split; [|apply String.eqb_refl].
      unfold labels. now apply (in_map (fun q => label (category_of up q))). }
    destruct (filter _ labels); [contradiction|]. simpl. lia.
Qed.

(** ** What a run prints *)

Section Report.
Variable up : char -> list char.
Variable World : Type.
Variable test_query : str -> World -> bool * World.

Lemma bind_print {B} (l : line) (k : unit -> M World B) (m : machine World) :
  bind (print l) k m = k tt (emit [l] m).
Proof.
  reflexivity.
Qed.

Lemma print_emit (l : line) (m : machine World) : print l m = (Ok tt, emit [l] m).
Proof.
  reflexivity.
Qed.

Lemma bind_lift {A B} (r : result A) (k : A -> M World B) (m : machine World) :
  bind (lift r) k m = match r with Ok a => k a m | Raise e => (Raise e, m) end.
Proof.
  unfold bind, lift. now destruct r.
Qed.

Lemma emit_emit (a b : list line) (m : machine World) :
  emit b (emit a m) = emit (a ++ b) m.
Proof.
  unfold emit. simpl. now rewrite app_assoc.
Qed.

Lemma emit_nil (m : machine World) : emit [] m = m.
Proof.
  destruct m. unfold emit. simpl. now rewrite app_nil_r.
Qed.

Lemma print_summary_ok (s : counts) (m : machine World) :
  total s <> 0 -> print_summary s m = (Ok tt, emit (summary_lines s) m).
Proof.
  intros H. unfold print_summary.
  rewrite !bind_print, bind_lift, truediv_percent by assumption.
  rewrite bind_print, bind_lift, truediv_percent by assumption.
  rewrite print_emit, !emit_emit. reflexivity.
Qed.

(** With nothing processed, line 102 divides by zero after four lines. *)
Lemma print_summary_zero (s : counts) (m : machine World) :
  total s = 0 ->
  print_summary s m = (Raise ZeroDivisionError, emit (summary_head s) m).
Proof.
  intros H. unfold print_summary.
  rewrite !bind_print, bind_lift. unfold truediv. rewrite H. simpl Z.eqb.
  rewrite !emit_emit. unfold summary_head. now rewrite H.
Qed.

Lemma for_each_print_category (failures : list str) (l : list (string * Z))
      (m : machine World) :
  len failures <> 0 ->
  for_each (print_category failures) l tt m
  = (Ok tt, emit (map (category_line failures) l) m).
Proof.
  intros H. revert m; induction l as [|[cat count] l IH]; intros m; cbn [for_each map].
  - unfold ret. now rewrite emit_nil.
  - unfold bind at 1.
    change (print_category failures (cat, count) tt m)
      with (bind (lift (truediv (100 * count) (len failures)))
              (fun pct => print (CategoryLine cat count pct)) m).
    rewrite bind_lift, truediv_percent by assumption.
    rewrite print_emit, IH, emit_emit. reflexivity.
Qed.

Lemma print_categories_ok (args : Args) (failures : list str) (m : machine World) :
  print_categories up args failures m
  = (Ok tt, emit (category_block up args failures) m).
Proof.
  unfold print_categories, category_block.
  destruct (categorize args && truthy failures) eqn:E.
  - rewrite !bind_print, bind_lift, map_result_categorize.
    fold (histogram up failures).
    rewrite for_each_print_category, !emit_emit; [reflexivity|].
    apply andb_prop in E as [_ E]. destruct failures; [discriminate|].
    unfold len. simpl. lia.
  - unfold ret. now rewrite emit_nil.
Qed.

Lemma for_each_print_sample (l : list str) (m : machine World) :
  for_each (fun q (_ : unit) => print (SampleLine (sample_text q))) l tt m
  = (Ok tt, emit (map (fun q => SampleLine (sample_text q)) l) m).
Proof.
  revert m; induction l as [|q l IH]; intros m; simpl.
  - unfold ret. now rewrite emit_nil.
  - rewrite bind_print, IH, emit_emit. reflexivity.
Qed.

Lemma print_samples_ok (args : Args) (failures : list str) (m : machine World) :
  print_samples args failures m = (Ok tt, emit (sample_block args failures) m).
Proof.
  unfold print_samples, sample_block.
  destruct (verbose args && truthy failures).
  - rewrite !bind_print, for_each_print_sample, !emit_emit. reflexivity.
  - unfold ret. now rewrite emit_nil.
Qed.

(** The loop of a run: it never raises, hands every selected query to the
    oracle once and in order, retains the failing ones in that order, and
    prints progress lines only. *)
Lemma run_loop_ok (args : Args) (corpus : list Item) (m : machine World) :
  exists s m' ps log,
    run_loop test_query args corpus m = (Ok s, m')
    /\ counts_ok s
    /\ total s = len (slice_to (Z.min (limit args) (len corpus)) corpus)
    /\ calls m' = calls m ++ log
    /\ map fst log
       = map item_query (slice_to (Z.min (limit args) (len corpus)) corpus)
    /\ passed s = passed_count log
    /\ failures s = failed_queries log
    /\ out m' = out m ++ ps /\ forallb is_progress ps = true.
Proof.
  unfold run_loop. fold counts0.
  destruct (for_each_loop_ok World test_query (Z.min (limit args) (len corpus))
              (slice_to (Z.min (limit args) (len corpus)) corpus) counts0 m counts0_ok)
    as (s & m' & ps & log & E & H & T & C & L & Q & F & O & P).
  exists s, m', ps, log. auto 10.
Qed.

(** A run whose two files exist, from the counters the loop ends with. *)
Lemma main_after_loop (args : Args) (env : Env) (m m' : machine World) (s : counts) :
  spider_data_exists env = true ->
  parser_bin_exists env = true ->
  run_loop test_query args (data env) m = (Ok s, m') ->
  main up test_query args env m
  = if total s =? 0
    then (Raise ZeroDivisionError, emit (summary_head s) m')
    else (Ok 0,
          emit (summary_lines s ++ category_block up args (failures s)
                ++ sample_block args (failures s)) m').
Proof.
  intros Hs Hp E. unfold main. rewrite Hs, Hp.
  change (negb true) with false. cbv iota.
  unfold bind at 1. rewrite E.
  destruct (Z.eqb_spec (total s) 0) as [Z0|Hnz].
  - unfold bind at 1. now rewrite print_summary_zero.
  - unfold bind at 1. rewrite print_summary_ok by assumption.
    unfold bind at 1. rewrite print_categories_ok.
    unfold bind at 1. rewrite print_samples_ok.
    unfold ret. rewrite !emit_emit. reflexivity.
Qed.

End Report.

(** ** Reading the output back *)

Lemma category_lines_app (a b : list line) :
  category_lines (a ++ b) = category_lines a ++ category_lines b.
Proof.
  apply flat_map_app.
Qed.

Lemma sample_lines_app (a b : list line) :
  sample_lines (a ++ b) = sample_lines a ++ sample_lines b.
Proof.
  apply flat_map_app.
Qed.

Lemma progress_lines_only (ps : list line) :
  forallb is_progress ps = true -> category_lines ps = [] /\ sample_lines ps = [].
Proof.
  induction ps as [|l ps IH]; simpl; [auto|].
  intros H. apply andb_prop in H as [Hl Hps].
  destruct l; try discriminate. simpl. auto.
Qed.

Lemma category_lines_of_categories (failures : list str) (h : list (string * Z)) :
  category_lines (map (category_line failures) h)
  = map (fun e => (fst e, snd e, percent (snd e) (len failures))) h.
Proof.
  induction h as [|e h IH]; simpl; [reflexivity|]. now rewrite IH.
Qed.

Lemma sample_lines_of_categories (failures : list str) (h : list (string * Z)) :
  sample_lines (map (category_line failures) h) = [].
Proof.
  induction h as [|e h IH]; simpl; [reflexivity|]. exact IH.
Qed.

Lemma sample_lines_of_samples (texts : list str) :
  sample_lines (map (fun q => SampleLine (sample_text q)) texts) = map sample_text texts.
Proof.
  induction texts as [|q texts IH]; simpl; [reflexivity|]. now rewrite IH.
Qed.

Lemma category_lines_of_samples (texts : list str) :
  category_lines (map (fun q => SampleLine (sample_text q)) texts) = [].
Proof.
  induction texts as [|q texts IH]; simpl; [reflexivity|]. exact IH.
Qed.

Lemma sample_lines_category_block (up : char -> list char) (args : Args)
      (failures : list str) :
  sample_lines (category_block up args failures) = [].
Proof.
  unfold category_block. destruct (categorize args && truthy failures); [|reflexivity].
  rewrite sample_lines_app, sample_lines_of_categories. reflexivity.
Qed.

Lemma sample_lines_sample_block (args : Args) (failures : list str) :
  sample_lines (sample_block args failures)
  = if verbose args then map sample_text (firstn 20 failures) else [].
Proof.
  unfold sample_block. destruct (verbose args); simpl andb; [|reflexivity].
  destruct failures as [|q failures]; [reflexivity|]. cbn [truthy].
  rewrite sample_lines_app, sample_lines_of_samples, slice_to_nonneg by lia.
  reflexivity.
Qed.

Lemma category_lines_sample_block (args : Args) (failures : list str) :
  category_lines (sample_block args failures) = [].
Proof.
  unfold sample_block. destruct (verbose args && truthy failures); [|reflexivity].
  rewrite category_lines_app, category_lines_of_samples. reflexivity.
Qed.

(** Counters that satisfy the invariant and count nothing retain nothing. *)
Lemma counts_ok_zero (s : counts) : counts_ok s -> total s = 0 -> failures s = [].
Proof.
  intros [Hp Ht] H0. pose proof (len_nonneg (failures s)) as Hl.
  destruct (failures s); [reflexivity|]. unfold len in *. simpl in *. lia.
Qed.

Lemma counts_ok_failures (s : counts) : counts_ok s -> failures s <> [] -> total s <> 0.
Proof.
  intros Hs Hf H0. apply Hf. now apply counts_ok_zero.
Qed.

(** ** Whole runs *)

Section Run.
Variable up : char -> list char.
Variable World : Type.
Variable test_query : str -> World -> bool * World.

(** A run over an empty selection stops at line 102 with a division by zero. *)
Lemma main_nothing_selected (args : Args) (env : Env) (w : World) :
  spider_data_exists env = true ->
  parser_bin_exists env = true ->
  slice_to (Z.min (limit args) (len (data env))) (data env) = [] ->
  main up test_query args env (start w)
  = (Raise ZeroDivisionError, emit (summary_head counts0) (start w)).
Proof.
  intros Hs Hp Hnil.
  rewrite (main_after_loop up World test_query args env (start w) (start w) counts0 Hs Hp).
  - reflexivity.
  - unfold run_loop. now rewrite Hnil.
Qed.

(** C6. With [--limit 0] nothing is selected, whatever the corpus: the run
    prints the head of the summary and raises [ZeroDivisionError] when it
    computes the first percentage; there is no test of [total] before the
    division. *)
Theorem main_limit_zero_divides_by_zero
        (corpus : list Item) (path : string) (c v : bool) (w : World) :
  main up test_query {| limit := 0; categorize := c; verbose := v |}
       {| SPIDER_DATA := path; spider_data_exists := true;
          parser_bin_exists := true; data := corpus |}
       (start w)
  = (Raise ZeroDivisionError, emit (summary_head counts0) (start w)).
Proof.
  apply main_nothing_selected; try reflexivity.
  cbn [limit data]. pose proof (len_nonneg corpus).
  rewrite Z.min_l by lia. reflexivity.
Qed.

(** C8. On the empty corpus with the default limit of 500, which is above
    the corpus size, the run processes no query and then raises
    [ZeroDivisionError] in the summary. *)
Theorem main_empty_corpus_divides_by_zero (path : string) (c v : bool) (w : World) :
  main up test_query {| limit := 500; categorize := c; verbose := v |}
       {| SPIDER_DATA := path; spider_data_exists := true;
          parser_bin_exists := true; data := [] |}
       (start w)
  = (Raise ZeroDivisionError, emit (summary_head counts0) (start w)).
Proof.
  apply main_nothing_selected; reflexivity.
Qed.


(** The sample lines of a run are the sample texts of at most the first
    twenty retained failures. *)
Lemma main_sample_lines (args : Args) (env : Env) (w : World) :
  exists s,
    sample_lines (out (snd (main up test_query args env (start w))))
    = (if spider_data_exists env && parser_bin_exists env && verbose args
       then map sample_text (firstn 20 (failures s)) else [])
    /\ (spider_data_exists env = true -> parser_bin_exists env = true ->
        exists m1, run_loop test_query args (data env) (start w) = (Ok s, m1)).
Proof.
  destruct (run_loop_ok World test_query args (data env) (start w))
    as (s & m1 & ps & log & E & Hok & T & C & L & Q & F & O & P).
  exists s. split; [|intros _ _; now exists m1].
  destruct (spider_data_exists env) eqn:Hs; [destruct (parser_bin_exists env) eqn:Hp|].
  - rewrite (main_after_loop up World test_query args env _ _ _ Hs Hp E).
    simpl andb. destruct (progress_lines_only ps P) as [_ Hps].
    destruct (Z.eqb_spec (total s) 0) as [E0|_]; cbn [snd emit out];
      rewrite O, !sample_lines_app, Hps.
    + rewrite (counts_ok_zero s Hok E0). destruct (verbose args); reflexivity.
    + rewrite sample_lines_category_block, sample_lines_sample_block. reflexivity.
  - unfold main. rewrite Hs, Hp. reflexivity.
  - unfold main. rewrite Hs. reflexivity.
Qed.

(** C7. When categorization is requested and a failure was retained, the
    category lines of the run are those of the ranked histogram of the
    retained failures, each with the percentage [100 * count / len(failures)]
    (the divisor is the number of failures, not [total]); the counts add up
    to the number of failures, and the percentages, taken exactly, to 100. *)
Theorem histogram_percentages
        (args : Args) (env : Env) (w : World) (s : counts) (m1 : machine World) :
  spider_data_exists env = true ->
  parser_bin_exists env = true ->
  run_loop test_query args (data env) (start w) = (Ok s, m1) ->
  categorize args = true ->
  failures s <> [] ->
  let hist := histogram up (failures s) in
  let n := len (failures s) in
  category_lines (out (snd (main up test_query args env (start w))))
  = map (fun e => (fst e, snd e, percent (snd e) n)) hist
  /\ Zsum (map snd hist) = n
  /\ (Qsum (map (fun e => percent (snd e) n) hist) == 100)%Q.
Proof.
  intros Hs Hp E Hc Hf hist n.
  destruct (run_loop_ok World test_query args (data env) (start w))
    as (s' & m' & ps & log & E' & Hok & _ & _ & _ & _ & _ & O & P).
  rewrite E in E'. injection E' as <- <-.
  assert (Hn : n <> 0).
  { unfold n, len. destruct (failures s); [contradiction|]. simpl. lia. }
  split; [|split].
  - rewrite (main_after_loop up World test_query args env _ _ _ Hs Hp E).
    destruct (Z.eqb_spec (total s) 0) as [E0|_];
      [now apply counts_ok_failures in Hf|].
    cbn [snd emit out]. destruct (progress_lines_only ps P) as [Hps _].
    rewrite O, !category_lines_app, Hps, category_lines_sample_block.
    assert (Ht : truthy (failures s) = true)
      by (destruct (failures s); [contradiction|reflexivity]).
    unfold category_block. rewrite Hc, Ht. cbn [andb].
    rewrite category_lines_app, category_lines_of_categories, !app_nil_r.
    reflexivity.
  - apply Zsum_histogram.
  - rewrite <- (map_map snd (fun c => percent c n)), Qsum_percent.
    unfold hist. rewrite Zsum_histogram. now apply percent_all.
Qed.

(** C9. The sample lines of a run are at most twenty, and none is longer
    than 103 characters; with [--verbose] they are the sample texts of the
    first twenty retained failures, which are the queries the oracle
    rejected, in the order of the calls; the sample
    text of a query longer than 100 characters is its first 100 characters
    followed by [...], and the sample text of any other query is the query. *)
Theorem verbose_samples (args : Args) (env : Env) (w : World) :
  let o := out (snd (main up test_query args env (start w))) in
  (List.length (sample_lines o) <= 20)%nat
  /\ Forall (fun t => (List.length t <= 103)%nat) (sample_lines o)
  /\ (forall s m1,
        spider_data_exists env = true ->
        parser_bin_exists env = true ->
        run_loop test_query args (data env) (start w) = (Ok s, m1) ->
        verbose args = true ->
        sample_lines o = map sample_text (firstn 20 (failures s))
        /\ failures s = failed_queries (calls m1))
  /\ (forall q, (List.length q > 100)%nat -> sample_text q = firstn 100 q ++ lit "...")
  /\ (forall q, (List.length q <= 100)%nat -> sample_text q = q).
Proof.
  intros o. destruct (main_sample_lines args env w) as (s & Ho & Hrun). fold o in Ho.
  split; [|split; [|split; [|split]]].
  - rewrite Ho.
    destruct (spider_data_exists env && parser_bin_exists env && verbose args);
      [|simpl; lia].
    rewrite length_map. apply firstn_le_length.
  - rewrite Ho.
    destruct (spider_data_exists env && parser_bin_exists env && verbose args);
      [|constructor].
    apply Forall_forall. intros t Ht. apply in_map_iff in Ht as (q & <- & _).
    apply sample_text_length.
  - intros s' m1 Hs Hp E Hv. destruct (Hrun Hs Hp) as (m1' & E').
    rewrite E in E'. injection E' as <- <-.
    split; [now rewrite Ho, Hs, Hp, Hv|].
    destruct (run_loop_ok World test_query args (data env) (start w))
      as (s1 & m1' & ps & log & E1 & _ & _ & C & _ & _ & F & _).
    rewrite E in E1. injection E1 as <- <-. now rewrite C.
  - apply sample_text_long.
  - apply sample_text_short.
Qed.

(** C10. A negative limit [n] on a corpus of [L] queries selects the corpus
    without its last [|n|] entries: the loop processes [max(0, L + n)]
    queries, the first ones of the corpus; when [L + n <= 0] none is
    processed and the summary divides by zero. *)
Theorem run_negative_limit (args : Args) (env : Env) (w : World) :
  limit args < 0 ->
  let L := len (data env) in
  let processed := firstn (Z.to_nat (L + limit args)) (data env) in
  (exists s m',
     run_loop test_query args (data env) (start w) = (Ok s, m')
     /\ total s = Z.max 0 (L + limit args)
     /\ map fst (calls m') = map item_query processed)
  /\ (exists rest,
        data env = processed ++ rest /\ len rest = Z.min (- limit args) L)
  /\ (spider_data_exists env = true ->
      parser_bin_exists env = true ->
      L + limit args <= 0 ->
      main up test_query args env (start w)
      = (Raise ZeroDivisionError, emit (summary_head counts0) (start w))).
Proof.
  intros Hneg L processed.
  pose proof (len_nonneg (data env)) as HL. fold L in HL.
  split; [|split].
  - destruct (run_loop_ok World test_query args (data env) (start w))
      as (s & m' & ps & log & E & _ & T & C & Lg & _).
    rewrite slice_to_clip_negative in T, Lg by assumption.
    fold L processed in T, Lg.
    exists s, m'. split; [exact E|]. split; [|now rewrite C].
    rewrite T. unfold processed, len. rewrite length_firstn.
    unfold L, len in *. lia.
  - exists (skipn (Z.to_nat (L + limit args)) (data env)). split.
    + unfold processed. now rewrite firstn_skipn.
    + unfold len. rewrite length_skipn. unfold L, len in *. lia.
  - intros Hs Hp Hle. apply main_nothing_selected; trivial.
    rewrite slice_to_clip_negative by assumption. fold L.
    replace (Z.to_nat (L + limit args)) with 0%nat by lia. reflexivity.
Qed.

End Run.

(** X2 on the two failures of the small run: UNION was met once. *)
Lemma histogram_counts_witness :
  1 = tally "UNION" (map (fun q => label (category_of no_mapping q)) (skipn 1 demo_queries))
  /\ 0 < 1.
Proof.
  apply (proj1 (proj1 (proj2 (proj2 (histogram_counts no_mapping (skipn 1 demo_queries))))
                  "UNION" 1)).
  vm_compute. auto.
Defined.


(** C7 on the small run: two failures, one String concat and one UNION. *)
Lemma histogram_percentages_witness :
  let failed := skipn 1 demo_queries in
  let hist := histogram no_mapping failed in
  category_lines
    (out (snd (main no_mapping replay (demo_args 500) demo_env (start demo_outcomes))))
  = map (fun e => (fst e, snd e, percent (snd e) (len failed))) hist
  /\ Zsum (map snd hist) = len failed
  /\ (Qsum (map (fun e => percent (snd e) (len failed)) hist) == 100)%Q.
Proof.
  apply (histogram_percentages no_mapping (list bool) replay
           (demo_args 500) demo_env demo_outcomes
           {| total := 3; passed := 1; failures := skipn 1 demo_queries |}
           {| world := []; calls := combine demo_queries demo_outcomes; out := [] |}).
  - reflexivity.
  - reflexivity.
  - vm_compute. reflexivity.
  - reflexivity.
  - discriminate.
Defined.

(** C9 on the small run: both retained failures are listed, unchanged. *)
Lemma verbose_samples_witness :
  sample_lines
    (out (snd (main no_mapping replay (demo_args 500) demo_env (start demo_outcomes))))
  = map sample_text (firstn 20 (skipn 1 demo_queries))
  /\ skipn 1 demo_queries = failed_queries (combine demo_queries demo_outcomes).
Proof.
  apply (proj1 (proj2 (proj2 (verbose_samples no_mapping (list bool) replay
                                (demo_args 500) demo_env demo_outcomes)))
           {| total := 3; passed := 1; failures := skipn 1 demo_queries |}
           {| world := []; calls := combine demo_queries demo_outcomes; out := [] |}).
  - reflexivity.
  - reflexivity.
  - vm_compute. reflexivity.
  - reflexivity.
Defined.

(** C10 on the small run with [--limit -1]: the last query is left out. *)
Lemma run_negative_limit_witness :
  exists s m',
    run_loop replay (demo_args (-1)) (data demo_env) (start demo_outcomes) = (Ok s, m')
    /\ total s = 2
    /\ map fst (calls m') = firstn 2 demo_queries.
Proof.
  exact (proj1 (run_negative_limit no_mapping (list bool) replay
                  (demo_args (-1)) demo_env demo_outcomes eq_refl)).
Defined.

(** ** The loop as a function of the oracle's answers *)

Section Trace.
Variable up : char -> list char.
Variable World : Type.
Variable test_query : str -> World -> bool * World.

(** One iteration, evaluated. *)
Lemma loop_body_eval (lim : Z) (item : Item) (s : counts) (m : machine World) :
  0 <= total s ->
  loop_body test_query lim item s m
  = let (ok, w) := test_query (item_query item) (world m) in
    (Ok (next_counts (item_query item) ok s),
     {| world := w;
        calls := calls m ++ [(item_query item, ok)];
        out := out m ++ progress_line lim (next_counts (item_query item) ok s) |}).
Proof.
  intros Ht. unfold loop_body, bind, call_test_query.
  destruct (test_query (item_query item) (world m)) as [ok w].
  unfold progress_line, next_counts.
  destruct ok; cbn [total passed failures];
    destruct ((total s + 1) mod 100 =? 0);
    unfold lift, ret, print; rewrite ?truediv_percent by lia;
    cbn [world calls out]; rewrite ?app_nil_r; reflexivity.
Qed.

Lemma next_counts_total (q : str) (ok : bool) (s : counts) :
  total (next_counts q ok s) = total s + 1.
Proof.
  now destruct ok.
Qed.

(** The loop, evaluated: the oracle is called on the queries in turn, each
    call from the state the one before left; counters and progress lines
    follow the answers. *)
Lemma for_each_loop_eval (lim : Z) (items : list Item) (s : counts) (m : machine World) :
  0 <= total s ->
  for_each (loop_body test_query lim) items s m
  = let (log, w) := oracle_trace test_query (map item_query items) (world m) in
    (Ok (counts_after s log),
     {| world := w; calls := calls m ++ log; out := out m ++ progress_of lim s log |}).
Proof.
  revert s m; induction items as [|item items IH]; intros s m Ht;
    cbn [for_each map oracle_trace].
  - unfold ret. cbn. rewrite !app_nil_r. now destruct m.
  - unfold bind. rewrite loop_body_eval by assumption.
    destruct (test_query (item_query item) (world m)) as [ok w].
    rewrite IH by (rewrite next_counts_total; lia).
    cbn [world calls out].
    destruct (oracle_trace test_query (map item_query items) w) as [log w'].
    cbn [counts_after fold_left progress_of fst snd].
    now rewrite <- !app_assoc.
Qed.

Lemma run_loop_eval (args : Args) (corpus : list Item) (m : machine World) :
  run_loop test_query args corpus m
  = let (log, w) :=
      oracle_trace test_query (map item_query (selected args corpus)) (world m) in
    (Ok (counts_after counts0 log),
     {| world := w; calls := calls m ++ log;
        out := out m ++ progress_of (Z.min (limit args) (len corpus)) counts0 log |}).
Proof.
  unfold run_loop. fold counts0. fold (selected args corpus).
  apply for_each_loop_eval. reflexivity.
Qed.

Lemma oracle_trace_queries (queries : list str) (w : World) :
  map fst (fst (oracle_trace test_query queries w)) = queries.
Proof.
  revert w; induction queries as [|q queries IH]; intros w; cbn [oracle_trace].
  - reflexivity.
  - destruct (test_query q w) as [ok w1]. specialize (IH w1).
    destruct (oracle_trace test_query queries w1) as [log w2].
    cbn in *. now rewrite IH.
Qed.

End Trace.

(** ** How a run ends, and what it asks of the oracle *)

Section Outcome.
Variable up : char -> list char.
Variable World : Type.
Variable test_query : str -> World -> bool * World.

Lemma selected_total (args : Args) (env : Env) (w : World) (s : counts)
      (m1 : machine World) :
  run_loop test_query args (data env) (start w) = (Ok s, m1) ->
  counts_ok s /\ total s = len (selected args (data env))
  /\ passed s = passed_count (calls m1)
  /\ failures s = failed_queries (calls m1)
  /\ category_lines (out m1) = [] /\ sample_lines (out m1) = [].
Proof.
  intros E.
  destruct (run_loop_ok World test_query args (data env) (start w))
    as (s' & m' & ps & log & E' & Hok & T & C & _ & Q & F & O & P).
  rewrite E in E'. injection E' as <- <-.
  destruct (progress_lines_only ps P) as [Hc Hs].
  cbn [start calls out app] in C, O. rewrite C, O. auto 6.
Qed.




(** X7. In the summary of a run that selected at least one query, the
    passed and failed counts are those of the oracle's answers, they add up
    to the total, and the two percentages, taken exactly, add up to 100. *)
Theorem main_summary (args : Args) (env : Env) (w : World) :
  spider_data_exists env = true ->
  parser_bin_exists env = true ->
  selected args (data env) <> [] ->
  exists m' before after n p f,
    main up test_query args env (start w) = (Ok 0, m')
    /\ out m' = before
                ++ [TotalLine n; PassedLine p (percent p n); FailedLine f (percent f n)]
                ++ after
    /\ n = len (selected args (data env))
    /\ p = passed_count (calls m')
    /\ f = len (failed_queries (calls m'))
    /\ p + f = n
    /\ (percent p n + percent f n == 100)%Q.
Proof.
  intros Hs Hp Hsel.
  destruct (run_loop_ok World test_query args (data env) (start w))
    as (s & m1 & ps & log & E & _ & _).
  destruct (selected_total args env w s m1 E) as ([_ Hinv] & T & Q & F & _).
  assert (Hn : total s <> 0).
  { rewrite T. destruct (selected args (data env)); [contradiction|].
    unfold len. simpl. lia. }
  rewrite (main_after_loop up World test_query args env _ _ _ Hs Hp E).
  destruct (Z.eqb_spec (total s) 0) as [E0|_]; [contradiction|].
  eexists _, (out m1 ++ firstn 3 (summary_head s)),
    (category_block up args (failures s) ++ sample_block args (failures s)),
    (total s), (passed s), (len (failures s)).
  split; [reflexivity|]. split; [|split; [exact T|split; [exact Q|split; [|split]]]].
  - cbn [emit out]. unfold summary_lines, summary_head. cbn [firstn app].
    rewrite <- !app_assoc. reflexivity.
  - cbn [emit calls]. now rewrite F.
  - exact Hinv.
  - rewrite <- percent_add, Hinv. now apply percent_all.
Qed.

(** X11. Category lines are printed only with [--categorize] and sample
    lines only with [--verbose], and neither is printed by a run in which
    the oracle accepted every query, whatever the flags. *)
Theorem main_optional_blocks (args : Args) (env : Env) (w : World) :
  let m' := snd (main up test_query args env (start w)) in
  (categorize args = false \/ failed_queries (calls m') = [] ->
   category_lines (out m') = [])
  /\ (verbose args = false \/ failed_queries (calls m') = [] ->
      sample_lines (out m') = []).
Proof.
  intros m'. unfold m'.
  destruct (spider_data_exists env) eqn:Hs;
    [destruct (parser_bin_exists env) eqn:Hp|];
    try (unfold main; rewrite Hs, ?Hp; split; reflexivity).
  destruct (run_loop_ok World test_query args (data env) (start w))
    as (s & m1 & ps & log & E & _ & _).
  destruct (selected_total args env w s m1 E) as (Hok & T & Q & F & Hc & Hsm).
  rewrite (main_after_loop up World test_query args env _ _ _ Hs Hp E).
  destruct (Z.eqb_spec (total s) 0) as [E0|_]; cbn [snd emit out calls].
  - rewrite category_lines_app, sample_lines_app, Hc, Hsm. split; reflexivity.
  - rewrite <- F.
    rewrite !category_lines_app, !sample_lines_app, Hc, Hsm,
      category_lines_sample_block, sample_lines_category_block,
      sample_lines_sample_block.
    unfold category_block. split.
    + intros [H|H]; rewrite H; rewrite ?andb_false_r; reflexivity.
    + intros [H|H]; rewrite H; [reflexivity|]. now destruct (verbose args).
Qed.

End Outcome.

(** ** Progress lines *)

Lemma next_counts_passed (c : str * bool) (s : counts) :
  passed (next_counts (fst c) (snd c) s) = passed s + passed_count [c].
Proof.
  destruct c as [q ok]. unfold passed_count, len. destruct ok; simpl; lia.
Qed.

(** The progress lines from the counters [s] on: one per total that is a
    multiple of 100, with the passes so far. *)
Lemma progress_of_hundreds (lim : Z) (log : list (str * bool)) (s : counts) :
  progress_of lim s log
  = map (fun t =>
           ProgressLine t lim
             (passed s + passed_count (firstn (Z.to_nat (t - total s)) log))
             (percent (passed s + passed_count (firstn (Z.to_nat (t - total s)) log)) t))
        (filter (fun t => t mod 100 =? 0)
                (map (fun j => total s + Z.of_nat j) (seq 1 (List.length log)))).
Proof.
  revert s; induction log as [|c log IH]; intros s; [reflexivity|].
  assert (Hseq : map (fun j => total s + Z.of_nat j) (seq 1 (List.length (c :: log)))
                 = (total s + 1)
                   :: map (fun j => total s + 1 + Z.of_nat j) (seq 1 (List.length log))).
  { cbn [List.length seq map]. f_equal; try lia.
    rewrite <- seq_shift, map_map. apply map_ext. intros j. lia. }
  rewrite Hseq. clear Hseq. cbn [progress_of filter].
  rewrite IH. unfold progress_line. rewrite next_counts_total, next_counts_passed.
  assert (Hfirst : forall k, passed_count (firstn (S k) (c :: log))
                             = passed_count [c] + passed_count (firstn k log)).
  { intros k. cbn [firstn]. change (c :: firstn k log) with ([c] ++ firstn k log).
    apply passed_count_app. }
  assert (Hrest : forall t,
             In t (filter (fun t => t mod 100 =? 0)
                     (map (fun j => total s + 1 + Z.of_nat j) (seq 1 (List.length log)))) ->
             passed s + passed_count [c]
             + passed_count (firstn (Z.to_nat (t - (total s + 1))) log)
             = passed s + passed_count (firstn (Z.to_nat (t - total s)) (c :: log))).
  { intros t Ht.
    apply filter_In in Ht as [Ht _]. apply in_map_iff in Ht as (j & <- & Hj).
    apply in_seq in Hj.
    replace (Z.to_nat (total s + 1 + Z.of_nat j - total s)) with (S j) by lia.
    replace (Z.to_nat (total s + 1 + Z.of_nat j - (total s + 1))) with j by lia.
    rewrite Hfirst. lia. }
  destruct ((total s + 1) mod 100 =? 0); cbn [app map].
  - f_equal.
    + replace (Z.to_nat (total s + 1 - total s)) with 1%nat by lia.
      rewrite (Hfirst 0%nat). cbn [firstn].
      replace (passed_count []) with 0 by reflexivity. now rewrite !Z.add_0_r.
    + apply map_ext_in. intros t Ht. now rewrite (Hrest t Ht).
  - apply map_ext_in. intros t Ht. now rewrite (Hrest t Ht).
Qed.

Lemma hundreds_length (n : nat) : len (hundreds n) = Z.of_nat n / 100.
Proof.
  unfold hundreds, len. induction n as [|n IH]; [reflexivity|].
  rewrite seq_S, map_app, filter_app, length_app, Nat2Z.inj_add, IH.
  cbn [map filter Nat.add].
  destruct (Z.eqb_spec (Z.of_nat (S n) mod 100) 0) as [E|E]; cbn [List.length];
    rewrite Nat2Z.inj_succ in *; Z.div_mod_to_equations; lia.
Qed.

Section Progress.
Variable World : Type.
Variable test_query : str -> World -> bool * World.

(** X6. Over [n] selected queries the loop prints [n / 100] progress lines
    and nothing else (integer division), one after each hundredth call and
    in that order; the line after call [t] shows [t], the clipped limit, and
    the number of calls among the first [t] that the oracle accepted, with
    its exact percentage of [t]. *)
Theorem run_loop_progress (args : Args) (corpus : list Item) (m : machine World) :
  let queries := map item_query (selected args corpus) in
  let log := fst (oracle_trace test_query queries (world m)) in
  let lim := Z.min (limit args) (len corpus) in
  out (snd (run_loop test_query args corpus m))
  = out m ++ map (progress_at lim log) (hundreds (List.length queries))
  /\ len (hundreds (List.length queries)) = len queries / 100.
Proof.
  intros queries log lim. split; [|apply hundreds_length].
  rewrite run_loop_eval. fold queries lim.
  pose proof (oracle_trace_queries World test_query queries (world m)) as Hq.
  fold log in Hq. unfold log.
  destruct (oracle_trace test_query queries (world m)) as [lg w']. cbn [fst snd out] in *.
  rewrite progress_of_hundreds. cbn [counts0 total passed].
  replace (List.length lg) with (List.length queries)
    by (rewrite <- Hq; now rewrite length_map).
  unfold hundreds, progress_at. f_equal.
  apply map_ext. intros t. cbv zeta. now rewrite Z.sub_0_r.
Qed.

End Progress.

(** ** Letter case *)

(** The upper-case mapping on ASCII. *)
Lemma upper_char_ascii (up : char -> list char) (c : char) :
  (c <? 128)%N = true ->
  upper_char up c = [if ((97 <=? c) && (c <=? 122))%N then (c - 32)%N else c].
Proof.
  intros H. unfold upper_char. now rewrite H.
Qed.

Lemma upper_ascii (up : char -> list char) (q : str) :
  is_ascii q = true ->
  upper up q = map (fun c => if ((97 <=? c) && (c <=? 122))%N then (c - 32)%N else c) q.
Proof.
  unfold is_ascii, upper. induction q as [|c q IH]; cbn [forallb flat_map map]; intros H.
  - reflexivity.
  - apply andb_prop in H as [Hc Hq]. now rewrite upper_char_ascii, IH.
Qed.

(** Upper-casing an ASCII character neither makes nor removes a double quote. *)
Lemma upper_keeps_quote (c : char) :
  N.eqb dquote (if ((97 <=? c) && (c <=? 122))%N then (c - 32)%N else c) = N.eqb dquote c.
Proof.
  unfold dquote.
  destruct (N.leb_spec 97 c); destruct (N.leb_spec c 122); cbn [andb]; trivial.
  destruct (N.eqb_spec 34 (c - 32)); destruct (N.eqb_spec 34 c); trivial; lia.
Qed.

Section QuoteMap.
Variable f : char -> char.
Hypothesis f_quote : forall c, N.eqb dquote (f c) = N.eqb dquote c.

Lemma count_map_quote (s : str) : count dquote (map f s) = count dquote s.
Proof.
  induction s as [|a s IH]; cbn [map count]; [reflexivity|].
  now rewrite IH, (N.eqb_sym (f a)), f_quote, (N.eqb_sym dquote).
Qed.

Lemma starts_with_map_quote (s : str) :
  starts_with [dquote; dquote] (map f s) = starts_with [dquote; dquote] s.
Proof.
  destruct s as [|a [|b s]]; cbn [map starts_with]; rewrite ?f_quote; reflexivity.
Qed.

Lemma find_map_quote (s : str) :
  find [dquote; dquote] (map f s) = find [dquote; dquote] s.
Proof.
  induction s as [|a s IH]; [reflexivity|].
  change (map f (a :: s)) with (f a :: map f s).
  cbn [find]. rewrite <- IH.
  change (f a :: map f s) with (map f (a :: s)). now rewrite starts_with_map_quote.
Qed.

End QuoteMap.

(** X8. On ASCII texts the classifier ignores letter case: two ASCII texts
    with the same upper-case form get the same category, the quote rule
    included, although that rule reads the original text. *)
Theorem categorize_failure_case_insensitive (up : char -> list char) (q1 q2 : str) :
  is_ascii q1 = true ->
  is_ascii q2 = true ->
  upper up q1 = upper up q2 ->
  categorize_failure up q1 = categorize_failure up q2.
Proof.
  intros H1 H2 E.
  pose (f := fun c : char => if ((97 <=? c) && (c <=? 122))%N then (c - 32)%N else c).
  assert (U1 : upper up q1 = map f q1) by exact (upper_ascii up q1 H1).
  assert (U2 : upper up q2 = map f q2) by exact (upper_ascii up q2 H2).
  assert (Hmap : map f q1 = map f q2) by congruence.
  assert (Hfind : find [dquote; dquote] q1 = find [dquote; dquote] q2).
  { transitivity (find [dquote; dquote] (map f q1));
      [symmetry; apply (find_map_quote f upper_keeps_quote)|].
    rewrite Hmap. apply (find_map_quote f upper_keeps_quote). }
  assert (Hcount : count dquote q1 = count dquote q2).
  { transitivity (count dquote (map f q1));
      [symmetry; apply (count_map_quote f upper_keeps_quote)|].
    rewrite Hmap. apply (count_map_quote f upper_keeps_quote). }
  unfold categorize_failure. rewrite E, Hcount.
  replace (contains [dquote; dquote] q1) with (contains [dquote; dquote] q2)
    by (unfold contains; now rewrite Hfind).
  reflexivity.
Qed.

(** X8 on a nested query written in lower and in upper case. *)
Lemma categorize_failure_case_insensitive_witness :
  categorize_failure no_mapping (lit "select a from t where b in (select c from u)")
  = categorize_failure no_mapping (lit "SELECT A FROM T WHERE B IN (SELECT C FROM U)").
Proof.
  apply (categorize_failure_case_insensitive no_mapping
           (lit "select a from t where b in (select c from u)")
           (lit "SELECT A FROM T WHERE B IN (SELECT C FROM U)"));
    vm_compute; reflexivity.
Defined.

(** ** Order of the histogram *)

Lemma filter_none {A} (p : A -> bool) (l : list A) :
  (forall x, In x l -> p x = false) -> filter p l = [].
Proof.
  induction l as [|a l IH]; cbn [filter]; intros H; [reflexivity|].
  rewrite (H a) by now left. apply IH. intros x Hx. apply H. now right.
Qed.

(** Ranking puts a new entry after the entries of the same count. *)
Lemma filter_insert_desc (n : Z) (x : string * Z) (l : list (string * Z)) :
  descending l ->
  filter (fun e => snd e =? n) (insert_desc x l)
  = filter (fun e => snd e =? n) l ++ (if snd x =? n then [x] else []).
Proof.
  unfold descending.
  induction l as [|y l IH]; cbn [insert_desc]; intros H.
  - cbn [filter app]. now destruct (snd x =? n).
  - inversion H as [|? ? Hl Hy]; subst.
    destruct (Z.ltb_spec (snd y) (snd x)) as [Hlt|Hge].
    + cbn [filter]. destruct (Z.eqb_spec (snd x) n) as [Hx|Hx]; [|now rewrite app_nil_r].
      destruct (Z.eqb_spec (snd y) n) as [Hyn|_]; [lia|].
      rewrite filter_none; [reflexivity|].
      intros e He. rewrite Forall_forall in Hy. specialize (Hy e He).
      apply Z.eqb_neq. lia.
    + cbn [filter]. rewrite (IH Hl). now destruct (snd y =? n).
Qed.

Lemma filter_most_common (n : Z) (c : list (string * Z)) :
  filter (fun e => snd e =? n) (most_common c) = filter (fun e => snd e =? n) c.
Proof.
  unfold most_common.
  assert (G : forall acc,
             descending acc ->
             filter (fun e => snd e =? n) (fold_left (fun acc x => insert_desc x acc) c acc)
             = filter (fun e => snd e =? n) acc ++ filter (fun e => snd e =? n) c).
  { induction c as [|x c IH]; intros acc Hacc; cbn [fold_left].
    - now rewrite app_nil_r.
    - rewrite IH by now apply insert_desc_descending.
      rewrite filter_insert_desc by assumption.
      cbn [filter]. rewrite <- app_assoc. now destruct (snd x =? n). }
  apply (G []). constructor.
Qed.

Lemma keys_counter_add_order (k : string) (c : list (string * Z)) :
  map fst (counter_add k c)
  = if existsb (String.eqb k) (map fst c) then map fst c else map fst c ++ [k].
Proof.
  induction c as [|[k0 n] c IH]; cbn [counter_add map fst existsb app]; [reflexivity|].
  rewrite (String.eqb_sym k k0).
  destruct (String.eqb k0 k); cbn [map fst orb]; [reflexivity|].
  rewrite IH. now destruct (existsb (String.eqb k) (map fst c)).
Qed.

Lemma filter_filter_and {A} (p q : A -> bool) (l : list A) :
  filter p (filter q l) = filter (fun x => p x && q x) l.
Proof.
  induction l as [|a l IH]; cbn [filter]; [reflexivity|].
  destruct (q a); cbn [filter]; rewrite IH, ?andb_true_r, ?andb_false_r;
    [reflexivity|]. reflexivity.
Qed.

Lemma existsb_eqb_true (k : string) (l : list string) :
  existsb (String.eqb k) l = true <-> In k l.
Proof.
  rewrite existsb_exists. split.
  - intros (x & Hx & E). apply String.eqb_eq in E. now subst.
  - intros H. exists k. split; [exact H|apply String.eqb_refl].
Qed.

(** A counter lists its keys in the order they were first fed. *)
Lemma Counter_keys_fold (keys : list string) (c : list (string * Z)) :
  map fst (fold_left (fun c k => counter_add k c) keys c)
  = map fst c
    ++ filter (fun k => negb (existsb (String.eqb k) (map fst c))) (first_seen keys).
Proof.
  revert c; induction keys as [|k keys IH]; intros c; cbn [fold_left first_seen filter].
  - now rewrite app_nil_r.
  - rewrite IH, keys_counter_add_order, filter_filter_and.
    destruct (existsb (String.eqb k) (map fst c)) eqn:E; cbn [negb].
    + f_equal. apply filter_ext. intros x.
      destruct (String.eqb_spec k x) as [<-|_]; [now rewrite E|now rewrite andb_true_r].
    + rewrite <- app_assoc. cbn [app]. do 2 f_equal. apply filter_ext. intros x.
      rewrite existsb_app. cbn [existsb]. rewrite orb_false_r, negb_orb.
      now rewrite (String.eqb_sym x k).
Qed.

Lemma Counter_keys (keys : list string) : map fst (Counter keys) = first_seen keys.
Proof.
  unfold Counter. rewrite Counter_keys_fold. cbn [map existsb negb app].
  induction (first_seen keys) as [|a l IH]; cbn [filter]; [reflexivity|]. now rewrite IH.
Qed.

Lemma map_fst_filter (p : string * Z -> bool) (q : string -> bool)
      (l : list (string * Z)) :
  (forall e, In e l -> p e = q (fst e)) ->
  map fst (filter p l) = filter q (map fst l).
Proof.
  induction l as [|e l IH]; cbn [filter map]; intros H; [reflexivity|].
  rewrite <- (H e) by now left.
  destruct (p e); cbn [map]; rewrite IH; trivial; intros x Hx; apply H; now right.
Qed.

(** X9. Categories with the same number of failures appear in the ranked
    histogram in the order in which they were first met among the failures:
    for every count [n], the categories listed with [n] are the categories
    met [n] times, in order of first occurrence. *)
Theorem histogram_ties (up : char -> list char) (failures : list str) (n : Z) :
  let labels := map (fun q => label (category_of up q)) failures in
  map fst (filter (fun e => snd e =? n) (histogram up failures))
  = filter (fun k => tally k labels =? n) (first_seen labels).
Proof.
  intros labels. unfold histogram. fold labels.
  rewrite filter_most_common, <- Counter_keys.
  destruct (Counter_spec labels) as (Hn & _ & Hl).
  apply map_fst_filter. intros [k v] He. cbn [fst snd].
  now rewrite <- Hl, (lookup_entry _ _ _ Hn He).
Qed.

Lemma Counter_keys_in (keys : list string) (k : string) :
  In k (map fst (Counter keys)) -> In k keys.
Proof.
  rewrite Counter_keys.
  induction keys as [|a keys IH]; cbn [first_seen In]; [tauto|].
  intros [H|H]; [now left|]. right. apply IH.
  now apply filter_In in H as [H _].
Qed.

(** The histogram never holds more entries than there are categories. *)
Lemma histogram_length (up : char -> list char) (failures : list str) :
  (List.length (histogram up failures) <= 8)%nat.
Proof.
  unfold histogram.
  set (labels := map (fun q => label (category_of up q)) failures).
  destruct (Counter_spec labels) as (Hn & _ & _).
  pose proof (most_common_perm (Counter labels)) as Hperm.
  rewrite (Permutation_length Hperm), <- (length_map fst).
  change 8%nat with (List.length (map label
    [Subquery; EXCEPT; UNION; INTERSECT; CASE_WHEN; String_concat;
     Double_quoted_strings; Other])).
  apply NoDup_incl_length; [exact Hn|].
  intros k Hk. apply Counter_keys_in in Hk.
  unfold labels in Hk. apply in_map_iff in Hk as (q & <- & _).
  apply in_map. destruct (category_of up q); simpl; tauto.
Qed.

(** ** Exit statuses of the parser *)

Section ExitStatus.
Variable up : char -> list char.
Variable World : Type.
Variable run_parser : str -> World -> Z * World.

Lemma oracle_trace_parser (queries : list str) (w : World) :
  oracle_trace (test_query_of run_parser) queries w
  = (map (fun c => (fst c, snd c =? 0)) (fst (parser_trace run_parser queries w)),
     snd (parser_trace run_parser queries w)).
Proof.
  revert w; induction queries as [|q queries IH]; intros w;
    cbn [oracle_trace parser_trace]; [reflexivity|].
  unfold test_query_of at 1. destruct (run_parser q w) as [rc w1].
  rewrite IH. destruct (parser_trace run_parser queries w1) as [log w2]. reflexivity.
Qed.

Lemma parser_trace_queries (queries : list str) (w : World) :
  map fst (fst (parser_trace run_parser queries w)) = queries.
Proof.
  revert w; induction queries as [|q queries IH]; intros w; cbn [parser_trace].
  - reflexivity.
  - destruct (run_parser q w) as [rc w1]. specialize (IH w1).
    destruct (parser_trace run_parser queries w1) as [log w2].
    cbn in *. now rewrite IH.
Qed.

Lemma failed_queries_statuses (statuses : list (str * Z)) :
  failed_queries (map (fun c => (fst c, snd c =? 0)) statuses)
  = map fst (filter (fun c => negb (snd c =? 0)) statuses).
Proof.
  unfold failed_queries.
  induction statuses as [|[q rc] l IH]; cbn [map filter fst snd]; [reflexivity|].
  destruct (rc =? 0); cbn [negb map fst]; now rewrite IH.
Qed.

Lemma passed_count_statuses (statuses : list (str * Z)) :
  passed_count (map (fun c => (fst c, snd c =? 0)) statuses)
  = len (filter (fun c => snd c =? 0) statuses).
Proof.
  unfold passed_count, len. f_equal.
  induction statuses as [|[q rc] l IH]; cbn [map filter fst snd]; [reflexivity|].
  destruct (rc =? 0); cbn [List.length]; now rewrite IH.
Qed.

(** X10. With [test_query] over the parser process, the loop runs the
    parser once on each selected query, in order; it retains as failures
    exactly the queries on which the exit status was not zero, whatever the
    status (a rejection or a crash alike), in that order, and counts as
    passed the queries on which it was zero. *)
Theorem run_loop_exit_status (args : Args) (corpus : list Item) (m : machine World) :
  let queries := map item_query (selected args corpus) in
  let statuses := fst (parser_trace run_parser queries (world m)) in
  exists s m',
    run_loop (test_query_of run_parser) args corpus m = (Ok s, m')
    /\ map fst statuses = queries
    /\ failures s = map fst (filter (fun c => negb (snd c =? 0)) statuses)
    /\ passed s = len (filter (fun c => snd c =? 0) statuses)
    /\ world m' = snd (parser_trace run_parser queries (world m)).
Proof.
  intros queries statuses.
  destruct (run_loop_ok World (test_query_of run_parser) args corpus m)
    as (s & m' & ps & log & E & _ & _ & C & _ & Q & F & _).
  pose proof (run_loop_eval World (test_query_of run_parser) args corpus m) as Ev.
  fold queries in Ev. rewrite oracle_trace_parser in Ev. fold statuses in Ev.
  rewrite E in Ev. injection Ev as Hs Hm.
  assert (Hlog : log = map (fun c => (fst c, snd c =? 0)) statuses).
  { apply (app_inv_head (calls m)). rewrite <- C, Hm. reflexivity. }
  exists s, m'. split; [exact E|]. split; [apply parser_trace_queries|].
  split; [|split].
  - now rewrite F, Hlog, failed_queries_statuses.
  - now rewrite Q, Hlog, passed_count_statuses.
  - now rewrite Hm.
Qed.

End ExitStatus.

Section CategoryLines.
Variable up : char -> list char.
Variable World : Type.
Variable test_query : str -> World -> bool * World.

(** X12. A run prints at most eight category lines, one per category at
    most; with [--categorize] and a query the oracle rejected it prints at
    least one. *)
Theorem main_category_lines_bound (args : Args) (env : Env) (w : World) :
  let m' := snd (main up test_query args env (start w)) in
  (List.length (category_lines (out m')) <= 8)%nat
  /\ NoDup (map (fun l => fst (fst l)) (category_lines (out m')))
  /\ (spider_data_exists env = true -> parser_bin_exists env = true ->
      categorize args = true -> failed_queries (calls m') <> [] ->
      (1 <= List.length (category_lines (out m')))%nat).
Proof.
  intros m'. unfold m'.
  destruct (spider_data_exists env) eqn:Hs;
    [destruct (parser_bin_exists env) eqn:Hp|];
    try (unfold main; rewrite Hs, ?Hp; cbn;
         split; [lia|split; [constructor|discriminate]]).
  destruct (run_loop_ok World test_query args (data env) (start w))
    as (s & m1 & ps & log & E & Hok & _ & C & _ & _ & F & O & P).
  destruct (progress_lines_only ps P) as [Hc _].
  cbn [start calls out app] in C, O.
  rewrite (main_after_loop up World test_query args env _ _ _ Hs Hp E).
  destruct (Z.eqb_spec (total s) 0) as [E0|_]; cbn [snd emit out calls].
  - rewrite O, category_lines_app, Hc. cbn.
    split; [lia|]. split; [constructor|]. intros _ _ _ Hf.
    rewrite C, <- F in Hf. now rewrite (counts_ok_zero s Hok E0) in Hf.
  - rewrite O, !category_lines_app, Hc, category_lines_sample_block, app_nil_r.
    cbn [app]. unfold category_block.
    destruct (categorize args && truthy (failures s)) eqn:B.
    + rewrite category_lines_app, category_lines_of_categories.
      replace (category_lines (summary_lines s)) with (@nil (string * Z * Q))
        by reflexivity.
      cbn [category_lines flat_map app].
      rewrite length_map, map_map. cbn [fst].
      split; [apply histogram_length|]. split.
      * unfold histogram.
        destruct (Counter_spec (map (fun q => label (category_of up q)) (failures s)))
          as (Hn & _ & _).
        eapply Permutation_NoDup; [|exact Hn].
        apply Permutation_map. symmetry. apply most_common_perm.
      * intros _ _ _ Hf. rewrite C, <- F in Hf.
        pose proof (Zsum_histogram up (failures s)) as Hsum.
        destruct (histogram up (failures s)); [|simpl; lia].
        destruct (failures s); [contradiction|]. unfold len in Hsum. simpl in Hsum. lia.
    + cbn. split; [lia|]. split; [constructor|]. intros _ _ Hcat Hf.
      rewrite C, <- F in Hf. rewrite Hcat in B.
      destruct (failures s); [contradiction|discriminate].
Qed.

End CategoryLines.

(** ** The statements on the small run *)




(** X7 on the whole small run: one passed, two failed, of three. *)
Lemma main_summary_witness :
  exists m' before after n p f,
    main no_mapping replay (demo_args 500) demo_env (start demo_outcomes) = (Ok 0, m')
    /\ out m' = before
                ++ [TotalLine n; PassedLine p (percent p n); FailedLine f (percent f n)]
                ++ after
    /\ n = len (selected (demo_args 500) (data demo_env))
    /\ p = passed_count (calls m')
    /\ f = len (failed_queries (calls m'))
    /\ p + f = n
    /\ (percent p n + percent f n == 100)%Q.
Proof.
  apply (main_summary no_mapping (list bool) replay
           (demo_args 500) demo_env demo_outcomes).
  - reflexivity.
  - reflexivity.
  - vm_compute. discriminate.
Defined.

(** X11 on the small run without [--categorize]. *)
Lemma main_optional_blocks_witness :
  category_lines
    (out (snd (main no_mapping replay
                 {| limit := 500; categorize := false; verbose := true |}
                 demo_env (start demo_outcomes))))
  = [].
Proof.
  apply (proj1 (main_optional_blocks no_mapping (list bool) replay
                  {| limit := 500; categorize := false; verbose := true |}
                  demo_env demo_outcomes)).
  left. reflexivity.
Defined.

(** X12 on the small run: two failures, so at least one category line. *)
Lemma main_category_lines_bound_witness :
  (1 <= List.length
          (category_lines
             (out (snd (main no_mapping replay (demo_args 500) demo_env
                          (start demo_outcomes))))))%nat.
Proof.
  apply (proj2 (proj2 (main_category_lines_bound no_mapping (list bool) replay
                         (demo_args 500) demo_env demo_outcomes))).
  - reflexivity.
  - reflexivity.
  - reflexivity.
  - vm_compute. discriminate.
Defined.

(** ** Longer texts *)

Lemma contains_app_l (needle a b : str) :
  contains needle a = true -> contains needle (a ++ b) = true.
Proof.
  rewrite !contains_iff. intros (pre & post & ->).
  exists pre, (post ++ b). now rewrite <- !app_assoc.
Qed.

Lemma subquery_rule_app_l (a b : str) :
  subquery_rule a = true -> subquery_rule (a ++ b) = true.
Proof.
  rewrite !subquery_rule_iff.
  intros ((p1 & p2 & Hs) & Hp & pre & post & Ha & Hnot & (s1 & s2 & Hpost)).
  split; [|split].
  - exists p1, (p2 ++ b). rewrite Hs. now rewrite <- !app_assoc.
  - apply in_or_app. now left.
  - exists pre, (post ++ b). split; [|split; [exact Hnot|]].
    + rewrite Ha. now rewrite <- app_assoc.
    + exists s1, (s2 ++ b). rewrite Hpost. now rewrite <- !app_assoc.
Qed.

Lemma upper_app (up : char -> list char) (a b : str) :
  upper up (a ++ b) = upper up a ++ upper up b.
Proof.
  apply flat_map_app.
Qed.

(** X13. Text added at the end of a query cannot hide a keyword category:
    when a text is classified by one of the six keyword rules, the text
    followed by anything else is classified by that rule or by an earlier
    one.  In particular a Subquery text stays Subquery however it goes on. *)
Theorem categorize_failure_append (up : char -> list char) (q r : str) (c c' : Category) :
  categorize_failure up q = Ok (label c) ->
  categorize_failure up (q ++ r) = Ok (label c') ->
  (rank c < 6)%nat ->
  (rank c' <= rank c)%nat.
Proof.
  intros Hq Hr Hrank.
  destruct (categorize_failure_table up q) as (d & Dq & Eq).
  destruct (categorize_failure_table up (q ++ r)) as (d' & Dr & Er).
  rewrite Eq in Hq. injection Hq as Hq. apply label_inj in Hq. subst d.
  rewrite Er in Hr. injection Hr as Hr. apply label_inj in Hr. subst d'.
  unfold rule_table, first_match, on_upper, predicate, category in Dq, Dr.
  rewrite upper_app in Dr.
  pose proof (subquery_rule_app_l (upper up q) (upper up r)) as M1.
  pose proof (contains_app_l (lit " EXCEPT ") (upper up q) (upper up r)) as M2.
  pose proof (contains_app_l (lit " UNION ") (upper up q) (upper up r)) as M3.
  pose proof (contains_app_l (lit " INTERSECT ") (upper up q) (upper up r)) as M4.
  pose proof (contains_app_l (lit "CASE ") (upper up q) (upper up r)) as M5.
  pose proof (contains_app_l (lit " WHEN ") (upper up q) (upper up r)) as M5'.
  pose proof (contains_app_l (lit " || ") (upper up q) (upper up r)) as M6.
  destruct (subquery_rule (upper up q)).
  { rewrite (M1 eq_refl) in Dr. injection Dq as <-. injection Dr as <-. simpl. lia. }
  destruct (contains (lit " EXCEPT ") (upper up q)).
  { rewrite (M2 eq_refl) in Dr. injection Dq as <-.
    destruct (subquery_rule (upper up q ++ upper up r));
      injection Dr as <-; simpl; lia. }
  destruct (contains (lit " UNION ") (upper up q)).
  { rewrite (M3 eq_refl) in Dr. injection Dq as <-.
    destruct (subquery_rule (upper up q ++ upper up r));
      [|destruct (contains (lit " EXCEPT ") (upper up q ++ upper up r))];
      injection Dr as <-; simpl; lia. }
  destruct (contains (lit " INTERSECT ") (upper up q)).
  { rewrite (M4 eq_refl) in Dr. injection Dq as <-.
    destruct (subquery_rule (upper up q ++ upper up r));
      [|destruct (contains (lit " EXCEPT ") (upper up q ++ upper up r));
        [|destruct (contains (lit " UNION ") (upper up q ++ upper up r))]];
      injection Dr as <-; simpl; lia. }
  destruct (contains (lit "CASE ") (upper up q) || contains (lit " WHEN ") (upper up q))
    eqn:A5.
  { assert (B5 : contains (lit "CASE ") (upper up q ++ upper up r)
                 || contains (lit " WHEN ") (upper up q ++ upper up r) = true).
    { apply orb_true_iff. apply orb_true_iff in A5 as [A5|A5]; auto. }
    rewrite B5 in Dr. injection Dq as <-.
    destruct (subquery_rule (upper up q ++ upper up r));
      [|destruct (contains (lit " EXCEPT ") (upper up q ++ upper up r));
        [|destruct (contains (lit " UNION ") (upper up q ++ upper up r));
          [|destruct (contains (lit " INTERSECT ") (upper up q ++ upper up r))]]];
      injection Dr as <-; simpl; lia. }
  destruct (contains (lit " || ") (upper up q)).
  { rewrite (M6 eq_refl) in Dr. injection Dq as <-.
    destruct (subquery_rule (upper up q ++ upper up r));
      [|destruct (contains (lit " EXCEPT ") (upper up q ++ upper up r));
        [|destruct (contains (lit " UNION ") (upper up q ++ upper up r));
          [|destruct (contains (lit " INTERSECT ") (upper up q ++ upper up r));
            [|destruct (contains (lit "CASE ") (upper up q ++ upper up r)
                        || contains (lit " WHEN ") (upper up q ++ upper up r))]]]];
      injection Dr as <-; simpl; lia. }
  destruct (double_quote_rule q); injection Dq as <-; simpl in Hrank; lia.
Qed.

(** X13 on a nested query followed by an EXCEPT clause: still Subquery. *)
Lemma categorize_failure_append_witness :
  categorize_failure no_mapping (lit "SELECT a FROM (SELECT b FROM t)")
  = Ok (label Subquery)
  /\ categorize_failure no_mapping
       (lit "SELECT a FROM (SELECT b FROM t)" ++ lit " EXCEPT SELECT c FROM u")
     = Ok (label Subquery)
  /\ (rank Subquery <= rank Subquery)%nat.
Proof.
  split; [vm_compute; reflexivity|]. split; [vm_compute; reflexivity|].
  apply (categorize_failure_append no_mapping
           (lit "SELECT a FROM (SELECT b FROM t)") (lit " EXCEPT SELECT c FROM u")
           Subquery Subquery).
  - vm_compute. reflexivity.
  - vm_compute. reflexivity.
  - simpl. lia.
Defined.
